(** * PoliSim landing page: the network canvas animation ([script.js])

  A shallow embedding of the [NetworkAnimation] class of [script.js] and
  the properties of its particle field.

  Conventions of the embedding.
  - A JavaScript number is a real number ([R]): the arithmetic of the
    script is read without rounding, and [NaN] and the infinities do not
    occur.  The one exception is the opacity that [toFixed(2)] prints: its
    last bit shows in the text, so each operation on the way to it rounds
    to the nearest double ([Num.round]).  [null] in a numeric slot is
    [None].
  - [this] is a record that every method receives and returns.
  - The 2-D context is a record holding the current path, the current
    styles and the list of shapes painted since the surface was last
    cleared; every call of the script on [this.ctx] is one function of
    module [Ctx].
  - [Math.random] reads the next element of a stream that is threaded
    through [createParticles].
  - The host calls the handlers: one [Event] per callback. *)

From Stdlib Require Import Reals Lra Lia List String Ascii ZArith Bool.
From Stdlib Require Import DecimalString.
Import ListNotations.

Local Open Scope R_scope.

(* ================================================================= *)
(** ** Numbers *)

Module Num.

(** [a < b] as the test of an [if]. *)
Definition ltb (a b : R) : bool := if Rlt_dec a b then true else false.

(** [a > b]. *)
Definition gtb (a b : R) : bool := ltb b a.

(** [ToNumber] of a slot that holds a number or [null]: [null] is 0. *)
Definition of_nullable (o : option R) : R :=
  match o with Some v => v | None => 0 end.

(** [floor(log2 |x|)], for [x] other than 0: the exponent of the double
    next to [x]. *)
Definition exponent (x : R) : Z := Int_part (ln (Rabs x) / ln 2).

(** The nearest integer, and the even one of the two when [y] is half way. *)
Definition nearest_even (y : R) : Z :=
  let f := Int_part y in
  if ltb (y - IZR f) (/ 2) then f
  else if ltb (/ 2) (y - IZR f) then (f + 1)%Z
  else if Z.even f then f else (f + 1)%Z.

(** The double nearest to [x], ties to even: doubles have 53 significant
    bits, so next to [x] they are the multiples of 2 to the power
    [exponent x - 52].  (The range of the exponent is not bounded; the
    opacities are far from both ends of it.) *)
Definition nearest_double (x : R) : R :=
  if ltb x 0 || ltb 0 x then
    IZR (nearest_even (x / powerRZ 2 (exponent x - 52)))
    * powerRZ 2 (exponent x - 52)
  else 0.

(** [round] is [nearest_double], closed to computation: a proof reaches it
    through the equation [round = nearest_double] alone. *)
Definition round_sealed : { f : R -> R | f = nearest_double }.
Proof. exists nearest_double. reflexivity. Qed.

Definition round : R -> R := proj1_sig round_sealed.

(** The integer [n] for which [n / 100 - v] is as close to zero as
    possible, the larger one when there are two ([0 <= v]). *)
Definition hundredths (v : R) : Z := Int_part (v * 100 + / 2).

Definition zeros (k : nat) : string := String.concat "" (repeat "0"%string k).

(** The decimal digits of [n], at least three of them, with a point
    before the last two. *)
Definition fixed2 (n : Z) : string :=
  let m := NilZero.string_of_uint (N.to_uint (Z.to_N n)) in
  let k := String.length m in
  let m := if (k <=? 2)%nat then (zeros (3 - k) ++ m)%string else m in
  let k := String.length m in
  (substring 0 (k - 2) m ++ "." ++ substring (k - 2) 2 m)%string.

Section ToString.

(** [Number::toString], the shortest decimal text that reads back as the
    same double: it has no counterpart on the reals and is left to the
    host. *)
Variable toString : R -> string.

(** [v.toFixed(2)]: the sign apart, the nearest multiple of 0.01 below
    [10 ^ 21], and [toString] from there on. *)
Definition toFixed2 (v : R) : string :=
  let s := if ltb v 0 then "-"%string else ""%string in
  let v := if ltb v 0 then - v else v in
  if ltb v (10 ^ 21) then (s ++ fixed2 (hundredths v))%string
  else (s ++ toString v)%string.

End ToString.

End Num.

(** [s.replace(pat, rep)] with a string pattern: the first occurrence of
    [pat] in [s] gives way to [rep]; [s] is returned when there is none.
    (The texts the script puts in are numerals, which hold no [$].) *)
Definition replace (pat rep s : string) : string :=
  match String.index 0 pat s with
  | Some k =>
      (substring 0 k s ++ rep
         ++ substring (k + String.length pat)
              (String.length s - (k + String.length pat)) s)%string
  | None => s
  end.

(* ================================================================= *)
(** ** The [Math] object *)

Module Math.

Definition sqrt (v : R) : R := R_sqrt.sqrt v.
Definition cos (a : R) : R := Rtrigo_def.cos a.
Definition sin (a : R) : R := Rtrigo_def.sin a.
Definition PI : R := Rtrigo1.PI.

(** [Math.atan2(y, x)]: the angle of the point [(x, y)], in [(-PI, PI]],
    and 0 at the origin. *)
Definition atan2 (y x : R) : R :=
  if Num.ltb 0 x then atan (y / x)
  else if Num.ltb x 0 then
    (if Num.ltb y 0 then atan (y / x) - PI else atan (y / x) + PI)
  else if Num.ltb 0 y then PI / 2
  else if Num.ltb y 0 then - (PI / 2)
  else 0.

(** The stream that [Math.random] reads. *)
Definition Rng : Type := nat -> R.

(** [Math.random()]: the head of the stream, and the stream that is left. *)
Definition random (g : Rng) : R * Rng := (g 0%nat, fun k => g (S k)).

(** What the host promises of [Math.random]: a number in [[0, 1)]. *)
Definition unit_interval (g : Rng) : Prop := forall k, 0 <= g k < 1.

End Math.

(* ================================================================= *)
(** ** The 2-D drawing context *)

Module Ctx.

Inductive Seg : Type :=
  | MoveTo (x y : R)
  | LineTo (x y : R)
  | Arc (x y r startAngle endAngle : R).

Inductive Shape : Type :=
  | Filled (path : list Seg) (style : string)
  | Stroked (path : list Seg) (style : string) (width : R).

Record t : Type := mk {
  path : list Seg;
  fillStyle : string;
  strokeStyle : string;
  lineWidth : R;
  painted : list Shape
}.

(** A context as the canvas hands it out. *)
Definition fresh : t := mk [] "#000000" "#000000" 1 [].

Definition beginPath (c : t) : t :=
  mk [] (fillStyle c) (strokeStyle c) (lineWidth c) (painted c).

Definition extend (s : Seg) (c : t) : t :=
  mk (path c ++ [s]) (fillStyle c) (strokeStyle c) (lineWidth c) (painted c).

Definition moveTo (x y : R) : t -> t := extend (MoveTo x y).
Definition lineTo (x y : R) : t -> t := extend (LineTo x y).
Definition arc (x y r a0 a1 : R) : t -> t := extend (Arc x y r a0 a1).

Definition set_fillStyle (s : string) (c : t) : t :=
  mk (path c) s (strokeStyle c) (lineWidth c) (painted c).

Definition set_strokeStyle (s : string) (c : t) : t :=
  mk (path c) (fillStyle c) s (lineWidth c) (painted c).

Definition set_lineWidth (w : R) (c : t) : t :=
  mk (path c) (fillStyle c) (strokeStyle c) w (painted c).

Definition fill (c : t) : t :=
  mk (path c) (fillStyle c) (strokeStyle c) (lineWidth c)
     (painted c ++ [Filled (path c) (fillStyle c)]).

Definition stroke (c : t) : t :=
  mk (path c) (fillStyle c) (strokeStyle c) (lineWidth c)
     (painted c ++ [Stroked (path c) (strokeStyle c) (lineWidth c)]).

(** [clearRect(x, y, w, h)].  The script clears one rectangle only, the
    whole surface, so nothing painted before is left. *)
Definition clearRect (x y w h : R) (c : t) : t :=
  mk (path c) (fillStyle c) (strokeStyle c) (lineWidth c) [].

End Ctx.

(* ================================================================= *)
(** ** The data of the animation *)

Module Particle.
Record t : Type := mk {
  x : R;
  y : R;
  size : R;
  speedX : R;
  speedY : R;
  opacity : R
}.
End Particle.

Module Mouse.
Record t : Type := mk {
  x : option R;
  y : option R;
  radius : R
}.
End Mouse.

Module Range.
Record t : Type := mk { min : R; max : R }.
End Range.

Module Settings.
Record t : Type := mk {
  particleCount : nat;
  particleSize : Range.t;
  particleSpeed : R;
  connectionDistance : R;
  particleColor : string;
  connectionColor : string;
  mouseConnectionColor : string
}.
End Settings.

Module Canvas.
Record t : Type := mk { width : R; height : R }.
End Canvas.

(** [window.innerWidth] and [window.innerHeight]. *)
Module Window.
Record t : Type := mk { innerWidth : R; innerHeight : R }.
End Window.

(* ================================================================= *)
(** ** The class [NetworkAnimation] *)

(** The fields of [this].  ([connections] is set to an empty array by the
    constructor and never read or written again; it is left out.) *)
Record NetworkAnimation : Type := mkNetworkAnimation {
  canvas : Canvas.t;
  ctx : Ctx.t;
  particles : list Particle.t;
  mouse : Mouse.t;
  settings : Settings.t
}.

Definition set_ctx (c : Ctx.t) (na : NetworkAnimation) : NetworkAnimation :=
  mkNetworkAnimation (canvas na) c (particles na) (mouse na) (settings na).

Definition set_particles (ps : list Particle.t) (na : NetworkAnimation)
  : NetworkAnimation :=
  mkNetworkAnimation (canvas na) (ctx na) ps (mouse na) (settings na).

Definition set_mouse (m : Mouse.t) (na : NetworkAnimation) : NetworkAnimation :=
  mkNetworkAnimation (canvas na) (ctx na) (particles na) m (settings na).

(** An assignment to [canvas.width] or [canvas.height] gives the surface its
    new size, blank, and its context the state of a fresh one. *)
Definition set_canvas_width (w : R) (na : NetworkAnimation) : NetworkAnimation :=
  mkNetworkAnimation (Canvas.mk w (Canvas.height (canvas na))) Ctx.fresh
    (particles na) (mouse na) (settings na).

Definition set_canvas_height (h : R) (na : NetworkAnimation) : NetworkAnimation :=
  mkNetworkAnimation (Canvas.mk (Canvas.width (canvas na)) h) Ctx.fresh
    (particles na) (mouse na) (settings na).

(** [for (let i = lo; i < hi; i++) body(i)] over a state [S]. *)
Definition for_range {S : Type} (lo hi : nat) (body : nat -> S -> S) (s : S) : S :=
  fold_left (fun s i => body i s) (seq lo (hi - lo)) s.

(** The Euclidean distance as the script computes it, three times over:
    [Math.sqrt(dx * dx + dy * dy)]. *)
Definition distance_of (dx dy : R) : R := Math.sqrt (dx * dx + dy * dy).

(** The settings the constructor writes. *)
Definition the_settings : Settings.t :=
  Settings.mk 80 (Range.mk 2 4) 0.3 150
    "rgba(37, 99, 235, 0.6)" "rgba(37, 99, 235, 0.15)" "rgba(6, 182, 212, 0.3)".

(** The cursor the constructor writes: absent, radius 150. *)
Definition the_mouse : Mouse.t := Mouse.mk None None 150.

Section Methods.

(** [Number::toString] of the host, see [Num.toFixed2]. *)
Variable toString : R -> string.

(** [resize()] *)
Definition resize (win : Window.t) (na : NetworkAnimation) : NetworkAnimation :=
  let na := set_canvas_width (Window.innerWidth win) na in
  set_canvas_height (Window.innerHeight win) na.

(** The object literal that [createParticles] pushes: six calls of
    [Math.random], in the order of the properties. *)
Definition newParticle (na : NetworkAnimation) (g : Math.Rng)
  : Particle.t * Math.Rng :=
  let particleSize := Settings.particleSize (settings na) in
  let particleSpeed := Settings.particleSpeed (settings na) in
  let '(r1, g) := Math.random g in
  let '(r2, g) := Math.random g in
  let '(r3, g) := Math.random g in
  let '(r4, g) := Math.random g in
  let '(r5, g) := Math.random g in
  let '(r6, g) := Math.random g in
  (Particle.mk
     (r1 * Canvas.width (canvas na))
     (r2 * Canvas.height (canvas na))
     (r3 * (Range.max particleSize - Range.min particleSize)
      + Range.min particleSize)
     ((r4 - 0.5) * particleSpeed)
     ((r5 - 0.5) * particleSpeed)
     (r6 * 0.5 + 0.3),
   g).

(** The body of the loop of [createParticles]. *)
Definition pushParticle (st : NetworkAnimation * Math.Rng)
  : NetworkAnimation * Math.Rng :=
  let '(na, g) := st in
  let '(p, g) := newParticle na g in
  (set_particles (particles na ++ [p]) na, g).

(** [createParticles()] *)
Definition createParticles (na : NetworkAnimation) (g : Math.Rng)
  : NetworkAnimation * Math.Rng :=
  let na := set_particles [] na in
  let particleCount := Settings.particleCount (settings na) in
  for_range 0 particleCount (fun _ st => pushParticle st) (na, g).

(** [init()] *)
Definition init (win : Window.t) (na : NetworkAnimation) (g : Math.Rng)
  : NetworkAnimation * Math.Rng :=
  let na := resize win na in
  createParticles na g.

(** [drawParticle(particle)] *)
Definition drawParticle (particle : Particle.t) (na : NetworkAnimation)
  : NetworkAnimation :=
  let c := ctx na in
  let c := Ctx.beginPath c in
  let c := Ctx.arc (Particle.x particle) (Particle.y particle)
             (Particle.size particle) 0 (Math.PI * 2) c in
  let c := Ctx.set_fillStyle
             (replace "0.6" (toString (Particle.opacity particle))
                (Settings.particleColor (settings na))) c in
  let c := Ctx.fill c in
  set_ctx c na.

(** [drawConnection(p1, p2, distance)].  The opacity is computed in doubles:
    the division, the subtraction and the product each round, and [0.15]
    is the double the literal denotes. *)
Definition drawConnection (p1 p2 : Particle.t) (distance : R)
  (na : NetworkAnimation) : NetworkAnimation :=
  let opacity :=
    Num.round (1 - Num.round (distance / Settings.connectionDistance (settings na))) in
  let c := ctx na in
  let c := Ctx.beginPath c in
  let c := Ctx.moveTo (Particle.x p1) (Particle.y p1) c in
  let c := Ctx.lineTo (Particle.x p2) (Particle.y p2) c in
  let c := Ctx.set_strokeStyle
             (replace "0.15"
                (Num.toFixed2 toString (Num.round (Num.round 0.15 * opacity)))
                (Settings.connectionColor (settings na))) c in
  let c := Ctx.set_lineWidth 1 c in
  let c := Ctx.stroke c in
  set_ctx c na.

(** [drawMouseConnection(particle, distance)], its opacity in doubles as in
    [drawConnection]. *)
Definition drawMouseConnection (particle : Particle.t) (distance : R)
  (na : NetworkAnimation) : NetworkAnimation :=
  let opacity := Num.round (1 - Num.round (distance / Mouse.radius (mouse na))) in
  let c := ctx na in
  let c := Ctx.beginPath c in
  let c := Ctx.moveTo (Particle.x particle) (Particle.y particle) c in
  let c := Ctx.lineTo (Num.of_nullable (Mouse.x (mouse na)))
             (Num.of_nullable (Mouse.y (mouse na))) c in
  let c := Ctx.set_strokeStyle
             (replace "0.3"
                (Num.toFixed2 toString (Num.round (Num.round 0.3 * opacity)))
                (Settings.mouseConnectionColor (settings na))) c in
  let c := Ctx.set_lineWidth 1.5 c in
  let c := Ctx.stroke c in
  set_ctx c na.

(** [updateParticle(particle)], in the three steps its comments name.  The
    particle is changed in place; the function returns it as it is after
    the step. *)

(** "Bounce off edges" *)
Definition bounce (na : NetworkAnimation) (p : Particle.t) : Particle.t :=
  let sx :=
    if Num.ltb (Particle.x p) 0 || Num.gtb (Particle.x p) (Canvas.width (canvas na))
    then Particle.speedX p * -1 else Particle.speedX p in
  let sy :=
    if Num.ltb (Particle.y p) 0 || Num.gtb (Particle.y p) (Canvas.height (canvas na))
    then Particle.speedY p * -1 else Particle.speedY p in
  Particle.mk (Particle.x p) (Particle.y p) (Particle.size p) sx sy
    (Particle.opacity p).

(** "Update position" *)
Definition advance (p : Particle.t) : Particle.t :=
  Particle.mk (Particle.x p + Particle.speedX p) (Particle.y p + Particle.speedY p)
    (Particle.size p) (Particle.speedX p) (Particle.speedY p) (Particle.opacity p).

(** "Mouse interaction - gentle repulsion" *)
Definition repel (na : NetworkAnimation) (p : Particle.t) : Particle.t :=
  match Mouse.x (mouse na), Mouse.y (mouse na) with
  | Some mx, Some my =>
      let dx := Particle.x p - mx in
      let dy := Particle.y p - my in
      let distance := distance_of dx dy in
      if Num.ltb distance (Mouse.radius (mouse na)) then
        let force := (Mouse.radius (mouse na) - distance) / Mouse.radius (mouse na) in
        let angle := Math.atan2 dy dx in
        Particle.mk
          (Particle.x p + Math.cos angle * force * 0.5)
          (Particle.y p + Math.sin angle * force * 0.5)
          (Particle.size p) (Particle.speedX p) (Particle.speedY p)
          (Particle.opacity p)
      else p
  | _, _ => p
  end.

Definition updateParticle (na : NetworkAnimation) (p : Particle.t) : Particle.t :=
  repel na (advance (bounce na p)).

(** [this.particles.forEach(particle => { ... })]: the callback changes the
    particle it is given, an element of the array, and [this]. *)
Fixpoint forEach (f : Particle.t -> NetworkAnimation -> Particle.t * NetworkAnimation)
  (ps : list Particle.t) (na : NetworkAnimation)
  : list Particle.t * NetworkAnimation :=
  match ps with
  | [] => ([], na)
  | p :: rest =>
      let '(p', na) := f p na in
      let '(rest', na) := forEach f rest na in
      (p' :: rest', na)
  end.

(** The body of the loop on [j]. *)
Definition connect (i j : nat) (na : NetworkAnimation) : NetworkAnimation :=
  match nth_error (particles na) i, nth_error (particles na) j with
  | Some pi, Some pj =>
      let dx := Particle.x pi - Particle.x pj in
      let dy := Particle.y pi - Particle.y pj in
      let distance := distance_of dx dy in
      if Num.ltb distance (Settings.connectionDistance (settings na))
      then drawConnection pi pj distance na
      else na
  | _, _ => na
  end.

(** "Draw mouse connections", at the end of the body of the loop on [i]. *)
Definition connect_mouse (i : nat) (na : NetworkAnimation) : NetworkAnimation :=
  match Mouse.x (mouse na), Mouse.y (mouse na), nth_error (particles na) i with
  | Some mx, Some my, Some pi =>
      let dx := Particle.x pi - mx in
      let dy := Particle.y pi - my in
      let distance := distance_of dx dy in
      if Num.ltb distance (Mouse.radius (mouse na))
      then drawMouseConnection pi distance na
      else na
  | _, _, _ => na
  end.

(** [animate()].  Its last statement asks the host for the next frame; the
    host answers with the event [Frame]. *)
Definition animate (na : NetworkAnimation) : NetworkAnimation :=
  let na :=
    set_ctx (Ctx.clearRect 0 0 (Canvas.width (canvas na))
               (Canvas.height (canvas na)) (ctx na)) na in
  let '(ps, na) :=
    forEach (fun particle na =>
               let particle := updateParticle na particle in
               (particle, drawParticle particle na))
            (particles na) na in
  let na := set_particles ps na in
  for_range 0 (List.length (particles na))
    (fun i na =>
       let na :=
         for_range (i + 1) (List.length (particles na)) (fun j na => connect i j na) na in
       connect_mouse i na)
    na.

(** The page as the host sees it: the window, [Math.random] and the one
    [NetworkAnimation] that [DOMContentLoaded] creates. *)
Record Page : Type := mkPage {
  window : Window.t;
  rng : Math.Rng;
  this : NetworkAnimation
}.

(** [new NetworkAnimation()], given the canvas element of the page. *)
Definition constructor (el : Canvas.t) (win : Window.t) (g : Math.Rng) : Page :=
  let na := mkNetworkAnimation el Ctx.fresh [] the_mouse the_settings in
  let '(na, g) := init win na g in
  let na := animate na in
  mkPage win g na.

(** What the host delivers once the listeners of [setupEventListeners] and
    the frame callback are in place. *)
Inductive Event : Type :=
| Frame
| Resize (win : Window.t)
| MouseMove (clientX clientY : R)
| MouseOut.

(** The three listeners of [setupEventListeners]. *)
Definition on_resize (pg : Page) : Page :=
  let na := resize (window pg) (this pg) in
  let '(na, g) := createParticles na (rng pg) in
  mkPage (window pg) g na.

Definition on_mousemove (clientX clientY : R) (pg : Page) : Page :=
  let na := this pg in
  let m := Mouse.mk (Some clientX) (Mouse.y (mouse na)) (Mouse.radius (mouse na)) in
  let na := set_mouse m na in
  let m := Mouse.mk (Mouse.x (mouse na)) (Some clientY) (Mouse.radius (mouse na)) in
  mkPage (window pg) (rng pg) (set_mouse m na).

Definition on_mouseout (pg : Page) : Page :=
  let na := this pg in
  let m := Mouse.mk None (Mouse.y (mouse na)) (Mouse.radius (mouse na)) in
  let na := set_mouse m na in
  let m := Mouse.mk (Mouse.x (mouse na)) None (Mouse.radius (mouse na)) in
  mkPage (window pg) (rng pg) (set_mouse m na).

(** One callback of the host. *)
Definition deliver (e : Event) (pg : Page) : Page :=
  match e with
  | Frame => mkPage (window pg) (rng pg) (animate (this pg))
  | Resize win => on_resize (mkPage win (rng pg) (this pg))
  | MouseMove clientX clientY => on_mousemove clientX clientY pg
  | MouseOut => on_mouseout pg
  end.

Definition run (es : list Event) (pg : Page) : Page :=
  fold_left (fun pg e => deliver e pg) es pg.

(* ================================================================= *)
(** ** What a frame paints *)

(** The shape [drawParticle] paints. *)
Definition disc (s : Settings.t) (p : Particle.t) : Ctx.Shape :=
  Ctx.Filled
    [Ctx.Arc (Particle.x p) (Particle.y p) (Particle.size p) 0 (Math.PI * 2)]
    (replace "0.6" (toString (Particle.opacity p)) (Settings.particleColor s)).

(** The double [base * (1 - distance / radius)] of the script, every
    operation rounded: the number that [toFixed(2)] prints. *)
Definition alpha (base distance radius : R) : R :=
  Num.round (Num.round base * Num.round (1 - Num.round (distance / radius))).

(** The stroke style [drawConnection] sets for a distance. *)
Definition connectionStyle (s : Settings.t) (distance : R) : string :=
  replace "0.15"
    (Num.toFixed2 toString (alpha 0.15 distance (Settings.connectionDistance s)))
    (Settings.connectionColor s).

(** The shape [drawConnection] paints. *)
Definition connectionLine (s : Settings.t) (p1 p2 : Particle.t) (distance : R)
  : Ctx.Shape :=
  Ctx.Stroked
    [Ctx.MoveTo (Particle.x p1) (Particle.y p1);
     Ctx.LineTo (Particle.x p2) (Particle.y p2)]
    (connectionStyle s distance) 1.

(** The stroke style [drawMouseConnection] sets for a distance. *)
Definition mouseStyle (s : Settings.t) (m : Mouse.t) (distance : R) : string :=
  replace "0.3"
    (Num.toFixed2 toString (alpha 0.3 distance (Mouse.radius m)))
    (Settings.mouseConnectionColor s).

(** The shape [drawMouseConnection] paints. *)
Definition mouseLine (s : Settings.t) (m : Mouse.t) (p : Particle.t) (distance : R)
  : Ctx.Shape :=
  Ctx.Stroked
    [Ctx.MoveTo (Particle.x p) (Particle.y p);
     Ctx.LineTo (Num.of_nullable (Mouse.x m)) (Num.of_nullable (Mouse.y m))]
    (mouseStyle s m distance) 1.5.

(** The distance of two particles, and of a particle and a point. *)
Definition distance (p q : Particle.t) : R :=
  distance_of (Particle.x p - Particle.x q) (Particle.y p - Particle.y q).

Definition distance_to (p : Particle.t) (cx cy : R) : R :=
  distance_of (Particle.x p - cx) (Particle.y p - cy).

(** The lines from [p] to the particles after it in the array. *)
Definition lines_from (s : Settings.t) (p : Particle.t) (rest : list Particle.t)
  : list Ctx.Shape :=
  flat_map
    (fun q =>
       if Num.ltb (distance p q) (Settings.connectionDistance s)
       then [connectionLine s p q (distance p q)] else [])
    rest.

(** The line from [p] to the cursor. *)
Definition line_to_mouse (s : Settings.t) (m : Mouse.t) (p : Particle.t)
  : list Ctx.Shape :=
  match Mouse.x m, Mouse.y m with
  | Some mx, Some my =>
      if Num.ltb (distance_to p mx my) (Mouse.radius m)
      then [mouseLine s m p (distance_to p mx my)] else []
  | _, _ => []
  end.

(** All the lines of a frame, in the order of the two loops. *)
Fixpoint lines (s : Settings.t) (m : Mouse.t) (ps : list Particle.t)
  : list Ctx.Shape :=
  match ps with
  | [] => []
  | p :: rest => lines_from s p rest ++ line_to_mouse s m p ++ lines s m rest
  end.

(** The lines between particles alone. *)
Fixpoint particle_lines (s : Settings.t) (ps : list Particle.t) : list Ctx.Shape :=
  match ps with
  | [] => []
  | p :: rest => lines_from s p rest ++ particle_lines s rest
  end.

(** [na'] is [na] with [shapes] painted after what was there; the path and
    the styles of the context may differ. *)
Definition paints (na : NetworkAnimation) (shapes : list Ctx.Shape)
  (na' : NetworkAnimation) : Prop :=
  canvas na' = canvas na /\ particles na' = particles na /\
  mouse na' = mouse na /\ settings na' = settings na /\
  Ctx.painted (ctx na') = (Ctx.painted (ctx na) ++ shapes)%list.

End Methods.

(** The cursor is present: [mouse.x !== null && mouse.y !== null]. *)
Definition present (m : Mouse.t) : bool :=
  match Mouse.x m, Mouse.y m with
  | Some _, Some _ => true
  | _, _ => false
  end.

(** A particle as [createParticles] makes it, on a surface of the given size
    and with the settings of the constructor. *)
Definition as_created (c : Canvas.t) (p : Particle.t) : Prop :=
  (0 <= Particle.x p <= Canvas.width c /\ 0 <= Particle.y p <= Canvas.height c) /\
  2 <= Particle.size p <= 4 /\
  0.3 <= Particle.opacity p <= 0.8 /\
  (-0.15 <= Particle.speedX p <= 0.15 /\ -0.15 <= Particle.speedY p <= 0.15).

(** What the constructor configures and no handler changes. *)
Definition configured (na : NetworkAnimation) : Prop :=
  settings na = the_settings /\ Mouse.radius (mouse na) = 150 /\
  List.length (particles na) = 80%nat.

(** A host for the examples: every draw of [Math.random] is one half, and
    [toString] answers with the text of one half, the only number the
    examples hand to it (the opacity of their particles). *)
Definition halves : Math.Rng := fun _ => 0.5.
Definition text_of_half : R -> string := fun _ => "0.5"%string.

(** A surface of 800 by 600 as the constructor leaves it, without
    particles, and the same with the cursor at (5, 0). *)
Definition empty_field : NetworkAnimation :=
  mkNetworkAnimation (Canvas.mk 800 600) Ctx.fresh [] the_mouse the_settings.

Definition cursor_field : NetworkAnimation :=
  set_mouse (Mouse.mk (Some 5) (Some 0) 150) empty_field.

(** A particle of size 3 and opacity 0.5. *)
Definition particle_at (x y speedX speedY : R) : Particle.t :=
  Particle.mk x y 3 speedX speedY 0.5.

(** Three particles at rest, at (0, 0), (10, 0) and (1000, 1000). *)
Definition three_at_rest : list Particle.t :=
  [particle_at 0 0 0 0; particle_at 10 0 0 0; particle_at 1000 1000 0 0].

(** The stream [g] once its first [n] elements are read. *)
Definition shift (n : nat) (g : Math.Rng) : Math.Rng := fun k => g (n + k)%nat.

(** The events that the listeners of the pointer receive. *)
Definition pointer (e : Event) : bool :=
  match e with
  | MouseMove _ _ | MouseOut => true
  | Frame | Resize _ => false
  end.

(** Along one axis of a surface of extent [w]: the particle at [x] with
    speed [s] is on the surface, or it has just stepped off it, coming from
    a point of the surface. *)
Definition on_or_just_off (w x s : R) : Prop :=
  0 <= x <= w \/ (x < 0 /\ s < 0 /\ 0 <= x - s <= w)
  \/ (w < x /\ 0 < s /\ 0 <= x - s <= w).

(* ================================================================= *)
(** ** The class lists of the page, [Navigation] and [ScrollAnimations] *)

(** [element.classList]: the classes of an element, in order, each once. *)
Module ClassList.

Definition t : Type := list string.

Definition contains (token : string) (l : t) : bool :=
  existsb (String.eqb token) l.

(** [classList.add(token)]: at the end, unless it is there. *)
Definition add (token : string) (l : t) : t :=
  if contains token l then l else l ++ [token].

(** [classList.remove(token)] *)
Definition remove (token : string) (l : t) : t :=
  filter (fun c => negb (String.eqb token c)) l.

(** [classList.toggle(token)]; the script drops what it returns. *)
Definition toggle (token : string) (l : t) : t :=
  if contains token l then remove token l else add token l.

End ClassList.

(** The three elements [Navigation] holds, by their class lists. *)
Record Navigation : Type := mkNavigation {
  navbar : ClassList.t;
  navToggle : ClassList.t;
  navLinks : ClassList.t
}.

(** What the listeners of [Navigation.init] that touch these elements
    receive: a scroll of the window, read at [window.scrollY], a click on
    the toggle, a click on a link of the menu. *)
Inductive NavEvent : Type :=
| Scroll (scrollY : R)
| ToggleClick
| LinkClick.

(** "Scroll effect" *)
Definition on_scroll (scrollY : R) (nav : Navigation) : Navigation :=
  if Num.gtb scrollY 50
  then mkNavigation (ClassList.add "scrolled" (navbar nav)) (navToggle nav) (navLinks nav)
  else mkNavigation (ClassList.remove "scrolled" (navbar nav)) (navToggle nav)
         (navLinks nav).

(** "Mobile toggle" *)
Definition on_toggle_click (nav : Navigation) : Navigation :=
  mkNavigation (navbar nav) (ClassList.toggle "active" (navToggle nav))
    (ClassList.toggle "active" (navLinks nav)).

(** "Close mobile nav on link click" *)
Definition on_link_click (nav : Navigation) : Navigation :=
  mkNavigation (navbar nav) (ClassList.remove "active" (navToggle nav))
    (ClassList.remove "active" (navLinks nav)).

Definition nav_deliver (e : NavEvent) (nav : Navigation) : Navigation :=
  match e with
  | Scroll scrollY => on_scroll scrollY nav
  | ToggleClick => on_toggle_click nav
  | LinkClick => on_link_click nav
  end.

Definition nav_run (es : list NavEvent) (nav : Navigation) : Navigation :=
  fold_left (fun nav e => nav_deliver e nav) es nav.

(** The menu is open: both the toggle and the links are [active]. *)
Definition menu_open (nav : Navigation) : bool :=
  ClassList.contains "active" (navToggle nav)
  && ClassList.contains "active" (navLinks nav).

(** The toggle and the links agree on [active]. *)
Definition menu_in_step (nav : Navigation) : Prop :=
  ClassList.contains "active" (navToggle nav)
  = ClassList.contains "active" (navLinks nav).

Definition is_toggle_click (e : NavEvent) : bool :=
  match e with ToggleClick => true | _ => false end.

Definition is_link_click (e : NavEvent) : bool :=
  match e with LinkClick => true | _ => false end.

(** An entry the intersection observer hands to its callback: the element
    it is about, by number, and whether it intersects. *)
Record Entry : Type := mkEntry {
  target : nat;
  isIntersecting : bool
}.

(** The callback of the observer of [ScrollAnimations.init], on the entries
    from [index] on: the timers it sets, each with its delay in
    milliseconds and the element whose callback it holds. *)
Fixpoint reveal_from (index : nat) (entries : list Entry) : list (nat * nat) :=
  match entries with
  | [] => []
  | entry :: rest =>
      (if isIntersecting entry then [((index * 50)%nat, target entry)] else [])
        ++ reveal_from (S index) rest
  end.

(** [entries.forEach((entry, index) => { ... })] *)
Definition reveal (entries : list Entry) : list (nat * nat) := reveal_from 0 entries.

(** The class lists of the observed elements, by number, and the callback
    of a timer: [entry.target.classList.add('visible')]. *)
Definition Elements : Type := nat -> ClassList.t.

Definition make_visible (el : nat) (page : Elements) : Elements :=
  fun k => if Nat.eqb k el then ClassList.add "visible" (page k) else page k.

(** The timers fire, in some order. *)
Definition fire_all (timers : list (nat * nat)) (page : Elements) : Elements :=
  fold_left (fun page timer => make_visible (snd timer) page) timers page.

(* ================================================================= *)
(** ** [debounce] and the timers of the host *)

Section Debounce.

(** What [func] is called with: the array [args]. *)
Variable A : Type.

(** A timer the host holds: its id, the time it is due, and the arguments
    that its callback, a [later], has closed over. *)
Record Timer : Type := mkTimer {
  timer_id : nat;
  due : nat;
  held : A
}.

(** One function that [debounce(func, wait)] returned, with the host around
    it: the clock in milliseconds, the next timer id, the timers that are
    set, the variable [timeout] of the closure ([None] while it is
    [undefined]) and the calls of [func] so far, oldest first. *)
Record Debounced : Type := mkDebounced {
  now : nat;
  next_id : nat;
  timers : list Timer;
  timeout : option nat;
  calls : list A
}.

(** Before [executedFunction] is called at all. *)
Definition debounced : Debounced := mkDebounced 0 1 [] None [].

(** [clearTimeout(id)]: nothing for [undefined] or for an id that is not
    set. *)
Definition clearTimeout (id : option nat) (ts : list Timer) : list Timer :=
  match id with
  | None => ts
  | Some i => filter (fun t => negb (Nat.eqb (timer_id t) i)) ts
  end.

(** [executedFunction(...args)] *)
Definition executedFunction (wait : nat) (args : A) (st : Debounced) : Debounced :=
  let ts := clearTimeout (timeout st) (timers st) in
  let id := next_id st in
  mkDebounced (now st) (S id) (ts ++ [mkTimer id (now st + wait) args])
    (Some id) (calls st).

(** [later()], for the call that held [args]. *)
Definition later (args : A) (st : Debounced) : Debounced :=
  let ts := clearTimeout (timeout st) (timers st) in
  mkDebounced (now st) (next_id st) ts (timeout st) (calls st ++ [args]).

(** The host runs the callback of the first timer that is due, if there is
    one, and forgets the timer. *)
Definition fire (st : Debounced) : Debounced :=
  match find (fun t => Nat.leb (due t) (now st)) (timers st) with
  | Some t =>
      later (held t)
        (mkDebounced (now st) (next_id st)
           (filter (fun u => negb (Nat.eqb (timer_id u) (timer_id t))) (timers st))
           (timeout st) (calls st))
  | None => st
  end.

(** What happens around the function: it is called, time passes, the host
    looks for a timer to run. *)
Inductive DebounceEvent : Type :=
| Call (args : A)
| Wait (ms : nat)
| Fire.

Definition debounce_step (wait : nat) (e : DebounceEvent) (st : Debounced)
  : Debounced :=
  match e with
  | Call args => executedFunction wait args st
  | Wait ms =>
      mkDebounced (now st + ms) (next_id st) (timers st) (timeout st) (calls st)
  | Fire => fire st
  end.

Definition debounce_run (wait : nat) (es : list DebounceEvent) (st : Debounced)
  : Debounced :=
  fold_left (fun st e => debounce_step wait e st) es st.

Definition is_call (e : DebounceEvent) : bool :=
  match e with Call _ => true | _ => false end.

(** The time that passes in a list of events. *)
Definition waited (es : list DebounceEvent) : nat :=
  fold_right (fun e t => match e with Wait ms => (ms + t)%nat | _ => t end) 0%nat es.

(** No timer is set, or one, the one [timeout] names. *)
Definition one_timer (st : Debounced) : Prop :=
  timers st = [] \/
  exists t, timers st = [t] /\ timeout st = Some (timer_id t).

End Debounce.

Arguments mkTimer {A}.
Arguments timer_id {A}.
Arguments due {A}.
Arguments held {A}.
Arguments mkDebounced {A}.
Arguments now {A}.
Arguments next_id {A}.
Arguments timers {A}.
Arguments timeout {A}.
Arguments calls {A}.
Arguments debounced {A}.
Arguments clearTimeout {A}.
Arguments executedFunction {A}.
Arguments later {A}.
Arguments fire {A}.
Arguments Call {A}.
Arguments Wait {A}.
Arguments Fire {A}.
Arguments debounce_step {A}.
Arguments debounce_run {A}.
Arguments is_call {A}.
Arguments waited {A}.
Arguments one_timer {A}.

(* ================================================================= *)
(** ** Comparisons, rounding and the trigonometry of two angles *)

Lemma ltb_lt (a b : R) : Num.ltb a b = true <-> a < b.
Proof. unfold Num.ltb. destruct (Rlt_dec a b); split; intros; congruence. Qed.

Lemma ltb_ge (a b : R) : Num.ltb a b = false <-> b <= a.
Proof.
  unfold Num.ltb. destruct (Rlt_dec a b); split; intros; try congruence; lra.
Qed.

(** Settles a comparison of two numbers that [lra] can order. *)
Ltac order_numbers :=
  unfold Num.gtb;
  repeat match goal with
  | |- context [Num.ltb ?a ?b] =>
      first [ replace (Num.ltb a b) with true by (symmetry; apply ltb_lt; lra)
            | replace (Num.ltb a b) with false by (symmetry; apply ltb_ge; lra) ]
  end.

Lemma hundredths_eq (v : R) (n : Z) :
  IZR n <= v * 100 + / 2 < IZR n + 1 -> Num.hundredths v = n.
Proof.
  intros H. unfold Num.hundredths. symmetry. apply Int_part_spec. lra.
Qed.

Lemma hundredths_bounds (v : R) :
  IZR (Num.hundredths v) <= v * 100 + / 2 < IZR (Num.hundredths v) + 1.
Proof.
  unfold Num.hundredths. destruct (base_Int_part (v * 100 + / 2)). lra.
Qed.

Lemma hundredths_mono (u v : R) : u <= v -> (Num.hundredths u <= Num.hundredths v)%Z.
Proof.
  intros H.
  pose proof (hundredths_bounds u) as Hu. pose proof (hundredths_bounds v) as Hv.
  apply Z.lt_succ_r. apply lt_IZR. rewrite succ_IZR. lra.
Qed.

(* ================================================================= *)
(** ** Rounding to doubles *)

Lemma ln2_pos : 0 < ln 2.
Proof. pose proof ln_lt_2. lra. Qed.

Lemma ln_pow2 (k : Z) : ln (powerRZ 2 k) = IZR k * ln 2.
Proof. rewrite powerRZ_Rpower by lra. apply ln_Rpower. Qed.

Lemma pow2_pos (k : Z) : 0 < powerRZ 2 k.
Proof. apply powerRZ_lt. lra. Qed.

Lemma ln_le_inv (a b : R) : 0 < a -> 0 < b -> ln a <= ln b -> a <= b.
Proof.
  intros Ha Hb H. destruct (Rle_or_lt a b) as [|Hlt]; [assumption|].
  apply ln_increasing in Hlt; lra.
Qed.

Lemma ln_le (a b : R) : 0 < a -> a <= b -> ln a <= ln b.
Proof.
  intros Ha [H| ->]; [|lra]. left. apply ln_increasing; assumption.
Qed.

Lemma exponent_spec (x : R) :
  0 < x -> powerRZ 2 (Num.exponent x) <= x < powerRZ 2 (Num.exponent x + 1).
Proof.
  intros Hx. unfold Num.exponent. rewrite Rabs_right by lra.
  set (e := Int_part (ln x / ln 2)).
  destruct (base_Int_part (ln x / ln 2)) as [H1 H2]. fold e in H1, H2.
  pose proof ln2_pos as L.
  assert (E : ln x = ln x / ln 2 * ln 2) by (field; lra).
  split.
  - apply ln_le_inv; [apply pow2_pos | exact Hx |]. rewrite ln_pow2. nra.
  - apply ln_lt_inv; [exact Hx | apply pow2_pos |]. rewrite ln_pow2, plus_IZR. nra.
Qed.

Lemma exponent_unique (x : R) (k : Z) :
  powerRZ 2 k <= x < powerRZ 2 (k + 1) -> Num.exponent x = k.
Proof.
  intros [H1 H2]. pose proof (pow2_pos k) as Hk.
  assert (Hx : 0 < x) by lra.
  unfold Num.exponent. rewrite Rabs_right by lra. symmetry. apply Int_part_spec.
  pose proof ln2_pos as L.
  apply ln_le in H1; [|exact Hk]. apply ln_increasing in H2; [|exact Hx].
  rewrite ln_pow2 in H1, H2. rewrite plus_IZR in H2.
  assert (E : ln x = ln x / ln 2 * ln 2) by (field; lra).
  split.
  - apply Rmult_lt_reg_r with (ln 2); [exact L|]. nra.
  - apply Rmult_le_reg_r with (ln 2); [exact L|]. nra.
Qed.

Lemma Rabs_bounds (x a : R) : Rabs x <= a -> - a <= x <= a.
Proof. unfold Rabs. destruct (Rcase_abs x); lra. Qed.

Lemma nearest_even_close (y : R) : Rabs (IZR (Num.nearest_even y) - y) <= / 2.
Proof.
  unfold Num.nearest_even. destruct (base_Int_part y) as [H1 H2].
  set (f := Int_part y) in *.
  destruct (Num.ltb (y - IZR f) (/ 2)) eqn:E1.
  - apply ltb_lt in E1. apply Rabs_le. lra.
  - apply ltb_ge in E1. destruct (Num.ltb (/ 2) (y - IZR f)) eqn:E2.
    + apply ltb_lt in E2. rewrite plus_IZR. apply Rabs_le. lra.
    + apply ltb_ge in E2. destruct (Z.even f); rewrite ?plus_IZR; apply Rabs_le; lra.
Qed.

Lemma nearest_even_eq (y : R) (m : Z) : Rabs (y - IZR m) < / 2 -> Num.nearest_even y = m.
Proof.
  intros H. apply Rabs_def2 in H. destruct H as [H1 H2].
  pose proof (nearest_even_close y) as C. apply Rabs_bounds in C.
  apply Z.le_antisymm; apply Z.lt_succ_r; apply lt_IZR; rewrite succ_IZR; lra.
Qed.

Lemma nearest_even_int (m : Z) : Num.nearest_even (IZR m) = m.
Proof. apply nearest_even_eq. rewrite Rminus_diag, Rabs_R0. lra. Qed.

Lemma Int_part_mono (a b : R) : a <= b -> (Int_part a <= Int_part b)%Z.
Proof.
  intros H. destruct (base_Int_part a), (base_Int_part b).
  apply Z.lt_succ_r. apply lt_IZR. rewrite succ_IZR. lra.
Qed.

Lemma nearest_even_mono (a b : R) : a <= b -> (Num.nearest_even a <= Num.nearest_even b)%Z.
Proof.
  intros H. pose proof (Int_part_mono a b H) as Hf.
  destruct (Z.eq_dec (Int_part a) (Int_part b)) as [E|NE].
  - unfold Num.nearest_even. rewrite E. set (f := Int_part b).
    destruct (Num.ltb (a - IZR f) (/ 2)) eqn:A1.
    + destruct (Num.ltb (b - IZR f) (/ 2)); [lia|].
      destruct (Num.ltb (/ 2) (b - IZR f)); [lia|]. destruct (Z.even f); lia.
    + apply ltb_ge in A1.
      replace (Num.ltb (b - IZR f) (/ 2)) with false by (symmetry; apply ltb_ge; lra).
      destruct (Num.ltb (/ 2) (a - IZR f)) eqn:A2.
      * apply ltb_lt in A2.
        replace (Num.ltb (/ 2) (b - IZR f)) with true by (symmetry; apply ltb_lt; lra). lia.
      * destruct (Num.ltb (/ 2) (b - IZR f)); destruct (Z.even f); lia.
  - assert (Hlt : (Int_part a + 1 <= Int_part b)%Z) by lia.
    assert (Ha : (Num.nearest_even a <= Int_part a + 1)%Z).
    { unfold Num.nearest_even. destruct (Num.ltb _ _); [lia|]. destruct (Num.ltb _ _); [lia|].
      destruct (Z.even _); lia. }
    assert (Hb : (Int_part b <= Num.nearest_even b)%Z).
    { unfold Num.nearest_even. destruct (Num.ltb _ _); [lia|]. destruct (Num.ltb _ _); [lia|].
      destruct (Z.even _); lia. }
    lia.
Qed.

Lemma round_unsealed : Num.round = Num.nearest_double.
Proof. exact (proj2_sig Num.round_sealed). Qed.

Lemma round_0 : Num.round 0 = 0.
Proof.
  rewrite round_unsealed. unfold Num.nearest_double. replace (Num.ltb 0 0) with false by (symmetry; apply ltb_ge; lra).
  reflexivity.
Qed.

Lemma round_pos (x : R) :
  0 < x ->
  Num.round x = IZR (Num.nearest_even (x / powerRZ 2 (Num.exponent x - 52)))
            * powerRZ 2 (Num.exponent x - 52).
Proof.
  intros H. rewrite round_unsealed. unfold Num.nearest_double.
  replace (Num.ltb 0 x) with true by (symmetry; apply ltb_lt; lra).
  rewrite orb_true_r. reflexivity.
Qed.

Lemma round_eq (x : R) (k m : Z) :
  powerRZ 2 k <= x < powerRZ 2 (k + 1) ->
  Rabs (x / powerRZ 2 (k - 52) - IZR m) < / 2 ->
  Num.round x = IZR m * powerRZ 2 (k - 52).
Proof.
  intros Hk Hm. pose proof (pow2_pos k).
  rewrite round_pos by lra. rewrite (exponent_unique x k Hk).
  rewrite (nearest_even_eq _ m Hm). reflexivity.
Qed.

Lemma pow2_split (k : Z) : powerRZ 2 k = powerRZ 2 52 * powerRZ 2 (k - 52).
Proof. rewrite <- powerRZ_add by lra. f_equal. lia. Qed.

Lemma pow2_succ (k : Z) : powerRZ 2 (k + 1) = 2 * powerRZ 2 k.
Proof. rewrite powerRZ_add by lra. simpl. lra. Qed.

Lemma pow2_mono (a b : Z) : (a <= b)%Z -> powerRZ 2 a <= powerRZ 2 b.
Proof.
  intros H. replace b with (a + Z.of_nat (Z.to_nat (b - a)))%Z by lia.
  rewrite powerRZ_add by lra. rewrite <- pow_powerRZ.
  pose proof (pow2_pos a). assert (1 <= 2 ^ Z.to_nat (b - a)) by (apply pow_R1_Rle; lra).
  nra.
Qed.

Lemma two_52 : powerRZ 2 52 = IZR (2 ^ 52).
Proof. rewrite <- (Zpower_pos_powerRZ 2 52). reflexivity. Qed.

(** A rounded number stays in the binade of the number. *)
Lemma round_binade (x : R) :
  0 < x ->
  powerRZ 2 (Num.exponent x) <= Num.round x <= powerRZ 2 (Num.exponent x + 1).
Proof.
  intros Hx. destruct (exponent_spec x Hx) as [H1 H2].
  rewrite round_pos by exact Hx. set (e := Num.exponent x) in *.
  pose proof (pow2_pos (e - 52)) as Hu. set (u := powerRZ 2 (e - 52)) in *.
  assert (E1 : powerRZ 2 e = IZR (2 ^ 52) * u) by (rewrite <- two_52; apply pow2_split).
  assert (E2 : powerRZ 2 (e + 1) = IZR (2 * 2 ^ 52) * u)
    by (rewrite pow2_succ, E1, mult_IZR; ring).
  rewrite E1, E2 in *.
  assert (L : IZR (2 ^ 52) <= x / u).
  { apply Rmult_le_reg_r with u; [exact Hu|]. unfold Rdiv.
    rewrite Rmult_assoc, Rinv_l by lra. lra. }
  assert (U : x / u <= IZR (2 * 2 ^ 52)).
  { apply Rmult_le_reg_r with u; [exact Hu|]. unfold Rdiv.
    rewrite Rmult_assoc, Rinv_l by lra. lra. }
  apply nearest_even_mono in L, U. rewrite nearest_even_int in L, U.
  apply IZR_le in L, U. split; apply Rmult_le_compat_r; lra.
Qed.

Lemma round_mono (x y : R) : 0 <= x -> x <= y -> Num.round x <= Num.round y.
Proof.
  intros Hx Hxy. destruct Hx as [Hx| <-].
  - assert (Hy : 0 < y) by lra.
    destruct (exponent_spec x Hx) as [X1 X2]. destruct (exponent_spec y Hy) as [Y1 Y2].
    destruct (Z.eq_dec (Num.exponent x) (Num.exponent y)) as [E|NE].
    + rewrite !round_pos by assumption. rewrite E.
      pose proof (pow2_pos (Num.exponent y - 52)) as Hu.
      apply Rmult_le_compat_r; [lra|]. apply IZR_le, nearest_even_mono.
      unfold Rdiv. apply Rmult_le_compat_r; [|exact Hxy].
      left. apply Rinv_0_lt_compat. exact Hu.
    + assert (Hlt : (Num.exponent x + 1 <= Num.exponent y)%Z).
      { destruct (Z_lt_le_dec (Num.exponent y) (Num.exponent x)) as [C|C]; [|lia].
        assert (powerRZ 2 (Num.exponent y + 1) <= powerRZ 2 (Num.exponent x))
          by (apply pow2_mono; lia). lra. }
      apply pow2_mono in Hlt.
      destruct (round_binade x Hx) as [_ Bx]. destruct (round_binade y Hy) as [By _]. lra.
  - rewrite round_0. destruct Hxy as [Hy| <-]; [|rewrite round_0; lra].
    destruct (round_binade y Hy) as [By _]. pose proof (pow2_pos (Num.exponent y)). lra.
Qed.

Lemma round_error (x : R) : 0 <= x -> Rabs (Num.round x - x) <= x * powerRZ 2 (-53).
Proof.
  intros [Hx| <-].
  - destruct (exponent_spec x Hx) as [H1 _].
    rewrite round_pos by exact Hx. set (e := Num.exponent x) in *.
    pose proof (pow2_pos (e - 52)) as Hu. set (u := powerRZ 2 (e - 52)) in *.
    pose proof (nearest_even_close (x / u)) as C. apply Rabs_bounds in C.
    assert (Ex : x = x / u * u) by (field; lra).
    assert (E1 : powerRZ 2 e = powerRZ 2 53 * powerRZ 2 (-53) * IZR (2 ^ 52) * u).
    { rewrite <- powerRZ_add by lra. simpl (53 + -53)%Z. rewrite powerRZ_O.
      rewrite <- two_52, (pow2_split e). fold u. ring. }
    assert (E53 : powerRZ 2 53 = 2 * IZR (2 ^ 52)).
    { change 53%Z with (52 + 1)%Z. rewrite pow2_succ, two_52. reflexivity. }
    pose proof (pow2_pos (-53)) as H53. set (v := powerRZ 2 (-53)) in *.
    assert (P : 0 < IZR (2 ^ 52)) by (apply IZR_lt; reflexivity).
    assert (Huv : u / 2 <= x * v).
    { assert (V : 2 * IZR (2 ^ 52) * v = 1).
      { rewrite <- E53. unfold v. rewrite <- powerRZ_add by lra. reflexivity. }
      assert (x * v >= IZR (2 ^ 52) * u * v) by nra. nra. }
    apply Rabs_le. nra.
  - rewrite round_0, Rminus_diag, Rabs_R0. lra.
Qed.

Lemma pow2_neg_lit (m : positive) (z : Z) :
  Z.pow_pos 2 m = z -> powerRZ 2 (Z.neg m) = / IZR z.
Proof.
  intros <-. rewrite Zpower_pos_powerRZ.
  change (Z.neg m) with (- Z.pos m)%Z. apply powerRZ_neg'.
Qed.

Lemma round_between (x lo u : R) (k m : Z) :
  powerRZ 2 k = lo -> powerRZ 2 (k - 52) = u ->
  lo <= x < 2 * lo -> - / 2 < x / u - IZR m < / 2 ->
  Num.round x = IZR m * u.
Proof.
  intros <- <- H1 H2. apply round_eq.
  - rewrite pow2_succ. exact H1.
  - apply Rabs_def1; lra.
Qed.

Lemma unit_roundoff : powerRZ 2 (-53) <= 1.2e-16.
Proof. rewrite (pow2_neg_lit 53 9007199254740992 eq_refl). lra. Qed.

Lemma round_1 : Num.round 1 = 1.
Proof.
  rewrite (round_between 1 1 (/ 4503599627370496) 0 4503599627370496).
  - lra.
  - reflexivity.
  - exact (pow2_neg_lit 52 _ eq_refl).
  - lra.
  - lra.
Qed.

Lemma round_unit (x : R) :
  0 <= x <= 1 -> 0 <= Num.round x <= 1 /\ Rabs (Num.round x - x) <= 1.2e-16.
Proof.
  intros [H0 H1]. split.
  - split.
    + rewrite <- round_0. apply round_mono; lra.
    + rewrite <- round_1. apply round_mono; lra.
  - pose proof (round_error x H0) as E. pose proof unit_roundoff as U.
    pose proof (pow2_pos (-53)). eapply Rle_trans; [exact E|]. nra.
Qed.

Lemma alpha_close (base d r : R) :
  0 <= base <= 1 -> 0 < r -> 0 <= d <= r ->
  0 <= alpha base d r <= 1
  /\ Rabs (alpha base d r - base * (1 - d / r)) <= 1e-15.
Proof.
  intros Hb Hr Hd. unfold alpha.
  assert (Hq : 0 <= d / r <= 1).
  { assert (Hi : 0 < / r) by (apply Rinv_0_lt_compat; lra).
    assert (H1 : r * / r = 1) by (apply Rinv_r; lra).
    unfold Rdiv. split; nra. }
  set (q := d / r) in *.
  destruct (round_unit q Hq) as [Ha Ea]. set (a := Num.round q) in *.
  assert (Ht : 0 <= 1 - a <= 1) by lra.
  destruct (round_unit (1 - a) Ht) as [Hb' Eb]. set (b := Num.round (1 - a)) in *.
  destruct (round_unit base Hb) as [Hc Ec]. set (c := Num.round base) in *.
  assert (Hp : 0 <= c * b <= 1) by nra.
  destruct (round_unit (c * b) Hp) as [Hx Ex].
  apply Rabs_bounds in Ea, Eb, Ec, Ex.
  split; [exact Hx|].
  set (e1 := b - (1 - q)). set (e2 := c - base).
  assert (B1 : -2.4e-16 <= e1 <= 2.4e-16) by (unfold e1; lra).
  assert (B2 : -1.2e-16 <= e2 <= 1.2e-16) by (unfold e2; lra).
  assert (E : c * b - base * (1 - q) = c * e1 + (1 - q) * e2) by (unfold e1, e2; ring).
  assert (P1 : -2.4e-16 <= c * e1 <= 2.4e-16) by nra.
  assert (P2 : -1.2e-16 <= (1 - q) * e2 <= 1.2e-16) by nra.
  apply Rabs_le. lra.
Qed.

Lemma alpha_mono (base d1 d2 r : R) :
  0 <= base -> 0 < r -> 0 <= d1 -> d1 <= d2 -> d2 <= r ->
  alpha base d2 r <= alpha base d1 r.
Proof.
  intros Hb Hr H1 H12 H2. unfold alpha.
  assert (Hi : 0 < / r) by (apply Rinv_0_lt_compat; lra).
  assert (I : r * / r = 1) by (apply Rinv_r; lra).
  assert (Q1 : 0 <= d1 / r) by (unfold Rdiv; nra).
  assert (Q12 : d1 / r <= d2 / r) by (unfold Rdiv; nra).
  assert (Q2 : d2 / r <= 1) by (unfold Rdiv; nra).
  assert (A12 : Num.round (d1 / r) <= Num.round (d2 / r)) by (apply round_mono; lra).
  assert (A2 : Num.round (d2 / r) <= 1) by (rewrite <- round_1; apply round_mono; lra).
  assert (B : Num.round (1 - Num.round (d2 / r)) <= Num.round (1 - Num.round (d1 / r)))
    by (apply round_mono; lra).
  assert (B0 : 0 <= Num.round (1 - Num.round (d2 / r)))
    by (rewrite <- round_0; apply round_mono; lra).
  assert (C : 0 <= Num.round base) by (rewrite <- round_0; apply round_mono; lra).
  apply round_mono; nra.
Qed.

(* ================================================================= *)
(** ** Distances and angles *)

Lemma distance_of_axis (dx : R) : distance_of dx 0 = Rabs dx.
Proof.
  unfold distance_of, Math.sqrt.
  replace (dx * dx + 0 * 0) with (Rsqr dx) by (unfold Rsqr; ring).
  apply sqrt_Rsqr_abs.
Qed.

Lemma atan2_origin : Math.atan2 0 0 = 0.
Proof. unfold Math.atan2. order_numbers. reflexivity. Qed.

Lemma atan2_negative_axis (x : R) : x < 0 -> Math.atan2 0 x = Math.PI.
Proof.
  intros H. unfold Math.atan2. order_numbers.
  replace (0 / x) with 0 by (unfold Rdiv; ring). rewrite atan_0.
  unfold Math.PI. ring.
Qed.

(* ================================================================= *)
(** ** What the drawing methods and the loops of [animate] paint *)

Section Painting.

Variable toString : R -> string.

Lemma paints_nothing (na : NetworkAnimation) : paints na [] na.
Proof. unfold paints. rewrite app_nil_r. auto. Qed.

Lemma paints_then (a b c : NetworkAnimation) (l1 l2 : list Ctx.Shape) :
  paints a l1 b -> paints b l2 c -> paints a (l1 ++ l2) c.
Proof.
  unfold paints. intros (Hc1 & Hp1 & Hm1 & Hs1 & Hd1) (Hc2 & Hp2 & Hm2 & Hs2 & Hd2).
  rewrite Hc2, Hp2, Hm2, Hs2, Hd2, Hd1, app_assoc. auto.
Qed.

Lemma paints_drawParticle (p : Particle.t) (na : NetworkAnimation) :
  paints na [disc toString (settings na) p] (drawParticle toString p na).
Proof. unfold paints. repeat split; reflexivity. Qed.

Lemma paints_drawConnection (p1 p2 : Particle.t) (d : R) (na : NetworkAnimation) :
  paints na [connectionLine toString (settings na) p1 p2 d]
    (drawConnection toString p1 p2 d na).
Proof. unfold paints. repeat split; reflexivity. Qed.

Lemma paints_drawMouseConnection (p : Particle.t) (d : R) (na : NetworkAnimation) :
  paints na [mouseLine toString (settings na) (mouse na) p d]
    (drawMouseConnection toString p d na).
Proof. unfold paints. repeat split; reflexivity. Qed.

Lemma skipn_head {A : Type} (l : list A) (k : nat) (a : A) (rest : list A) :
  skipn k l = a :: rest -> nth_error l k = Some a /\ skipn (S k) l = rest.
Proof.
  revert l. induction k as [|k IH]; intros [|b l] H; simpl in *; try discriminate.
  - inversion H. auto.
  - apply IH in H. exact H.
Qed.

Lemma paints_connect (i j : nat) (pi pj : Particle.t) (na : NetworkAnimation) :
  nth_error (particles na) i = Some pi ->
  nth_error (particles na) j = Some pj ->
  paints na (lines_from toString (settings na) pi [pj]) (connect toString i j na).
Proof.
  intros Hi Hj. unfold connect, lines_from. rewrite Hi, Hj. simpl.
  fold (distance pi pj). rewrite app_nil_r.
  destruct (Num.ltb (distance pi pj) (Settings.connectionDistance (settings na))).
  - apply paints_drawConnection.
  - apply paints_nothing.
Qed.

Lemma lines_from_cons (s : Settings.t) (p q : Particle.t) (rest : list Particle.t) :
  lines_from toString s p (q :: rest)
  = lines_from toString s p [q] ++ lines_from toString s p rest.
Proof. unfold lines_from. simpl. rewrite app_nil_r. reflexivity. Qed.

(** The loop on [j], from any index on. *)
Lemma paints_loop_j (i : nat) (pi : Particle.t) (rest : list Particle.t) :
  forall (k : nat) (na : NetworkAnimation),
    nth_error (particles na) i = Some pi ->
    skipn k (particles na) = rest ->
    paints na (lines_from toString (settings na) pi rest)
      (fold_left (fun s j => connect toString i j s) (seq k (List.length rest)) na).
Proof.
  induction rest as [|q rest IH]; intros k na Hi Hk;
    cbn [List.length seq fold_left].
  - apply paints_nothing.
  - apply skipn_head in Hk. destruct Hk as [Hq Hk].
    rewrite lines_from_cons.
    pose proof (paints_connect i k pi q na Hi Hq) as H1.
    assert (H1' := H1). destruct H1' as (_ & Hp & _ & Hs & _).
    eapply paints_then; [exact H1|].
    rewrite <- Hs. apply IH; rewrite Hp; assumption.
Qed.

Lemma paints_connect_mouse (i : nat) (pi : Particle.t) (na : NetworkAnimation) :
  nth_error (particles na) i = Some pi ->
  paints na (line_to_mouse toString (settings na) (mouse na) pi)
    (connect_mouse toString i na).
Proof.
  intros Hi. unfold connect_mouse, line_to_mouse. rewrite Hi.
  destruct (Mouse.x (mouse na)) as [mx|]; [|apply paints_nothing].
  destruct (Mouse.y (mouse na)) as [my|]; [|apply paints_nothing].
  fold (distance_to pi mx my).
  destruct (Num.ltb (distance_to pi mx my) (Mouse.radius (mouse na))).
  - apply paints_drawMouseConnection.
  - apply paints_nothing.
Qed.

(** The body of the loop on [i]. *)
Lemma paints_body_i (k : nat) (p : Particle.t) (rest : list Particle.t)
  (na : NetworkAnimation) :
  nth_error (particles na) k = Some p ->
  skipn (S k) (particles na) = rest ->
  paints na
    (lines_from toString (settings na) p rest
       ++ line_to_mouse toString (settings na) (mouse na) p)
    (connect_mouse toString k
       (for_range (k + 1) (List.length (particles na))
          (fun j s => connect toString k j s) na)).
Proof.
  intros Hp Hk.
  assert (Hlen : (List.length (particles na) - (k + 1) = List.length rest)%nat).
  { rewrite <- Hk, length_skipn. lia. }
  unfold for_range. rewrite Hlen.
  assert (Hk' : skipn (k + 1) (particles na) = rest)
    by (rewrite Nat.add_1_r; exact Hk).
  pose proof (paints_loop_j k p rest (k + 1)%nat na Hp Hk') as H1.
  set (na1 := fold_left _ _ na) in *.
  assert (H1' := H1). destruct H1' as (_ & Hp1 & Hm1 & Hs1 & _).
  eapply paints_then; [exact H1|].
  rewrite <- Hs1, <- Hm1. apply paints_connect_mouse. rewrite Hp1. exact Hp.
Qed.

(** The loop on [i], from any index on. *)
Lemma paints_loop_i (rest : list Particle.t) :
  forall (k : nat) (na : NetworkAnimation),
    skipn k (particles na) = rest ->
    paints na (lines toString (settings na) (mouse na) rest)
      (fold_left
         (fun s i =>
            connect_mouse toString i
              (for_range (i + 1) (List.length (particles s))
                 (fun j s => connect toString i j s) s))
         (seq k (List.length rest)) na).
Proof.
  induction rest as [|p rest IH]; intros k na Hk;
    cbn [List.length seq fold_left lines].
  - apply paints_nothing.
  - apply skipn_head in Hk. destruct Hk as [Hp Hk].
    pose proof (paints_body_i k p rest na Hp Hk) as H1.
    set (na1 := connect_mouse toString k _) in *.
    assert (H1' := H1). destruct H1' as (_ & Hp1 & Hm1 & Hs1 & _).
    rewrite app_assoc. eapply paints_then; [exact H1|].
    rewrite <- Hs1, <- Hm1. apply IH. rewrite Hp1. exact Hk.
Qed.

(** The two nested loops of [animate]. *)
Lemma paints_lines (na : NetworkAnimation) :
  paints na (lines toString (settings na) (mouse na) (particles na))
    (for_range 0 (List.length (particles na))
       (fun i s =>
          connect_mouse toString i
            (for_range (i + 1) (List.length (particles s))
               (fun j s => connect toString i j s) s))
       na).
Proof.
  unfold for_range at 1. rewrite Nat.sub_0_r. apply paints_loop_i. reflexivity.
Qed.

(** The first loop of [animate]: every particle updated, then painted. *)
Lemma forEach_update (ps : list Particle.t) :
  forall na : NetworkAnimation,
    let r := forEach (fun particle na =>
                        let particle := updateParticle na particle in
                        (particle, drawParticle toString particle na)) ps na in
    fst r = map (updateParticle na) ps /\
    paints na (map (disc toString (settings na)) (fst r)) (snd r).
Proof.
  induction ps as [|p ps IH]; intros na; simpl.
  - split; [reflexivity | apply paints_nothing].
  - pose proof (paints_drawParticle (updateParticle na p) na) as H1.
    set (na1 := drawParticle toString (updateParticle na p) na) in *.
    specialize (IH na1). simpl in IH.
    destruct (forEach _ ps na1) as [rest' na2]. simpl in *.
    destruct IH as [E H2].
    assert (H1' := H1). destruct H1' as (Hc & _ & Hm & Hs & _).
    split.
    + rewrite E. reflexivity.
    + change (paints na ([disc toString (settings na) (updateParticle na p)]
                           ++ map (disc toString (settings na)) rest') na2).
      eapply paints_then; [exact H1 | exact H2].
Qed.

(** A frame: the particles after it, and what is on the surface. *)
Lemma animate_frame (na : NetworkAnimation) :
  let ps := map (updateParticle na) (particles na) in
  canvas (animate toString na) = canvas na /\
  particles (animate toString na) = ps /\
  mouse (animate toString na) = mouse na /\
  settings (animate toString na) = settings na /\
  Ctx.painted (ctx (animate toString na))
  = map (disc toString (settings na)) ps ++ lines toString (settings na) (mouse na) ps.
Proof.
  unfold animate.
  set (na0 := set_ctx _ na).
  pose proof (forEach_update (particles na0) na0) as H.
  destruct (forEach _ (particles na0) na0) as [ps' na1].
  cbv zeta in H. cbn [fst snd] in H.
  destruct H as [E (Hc & Hp & Hm & Hs & Hd)].
  set (na2 := set_particles ps' na1).
  pose proof (paints_lines na2) as H.
  destruct H as (Hc' & Hp' & Hm' & Hs' & Hd').
  rewrite Hc', Hp', Hm', Hs', Hd'.
  subst na2. cbn [set_particles canvas particles mouse settings ctx].
  rewrite Hc, Hm, Hs, Hd, E. subst na0. simpl. auto.
Qed.

End Painting.

(* ================================================================= *)
(** ** Which lines a frame holds *)

Section Lines.

Variable toString : R -> string.

Lemma in_lines_from (s : Settings.t) (p : Particle.t) (rest : list Particle.t)
  (sh : Ctx.Shape) :
  In sh (lines_from toString s p rest) <->
  exists q, In q rest /\ distance p q < Settings.connectionDistance s /\
            sh = connectionLine toString s p q (distance p q).
Proof.
  unfold lines_from. rewrite in_flat_map. split.
  - intros (q & Hq & Hin). exists q.
    destruct (Num.ltb _ _) eqn:E; [|contradiction].
    apply ltb_lt in E. destruct Hin as [<-|[]]. auto.
  - intros (q & Hq & Hd & ->). exists q. split; [assumption|].
    apply ltb_lt in Hd. rewrite Hd. left. reflexivity.
Qed.

Lemma in_line_to_mouse (s : Settings.t) (m : Mouse.t) (p : Particle.t)
  (sh : Ctx.Shape) :
  In sh (line_to_mouse toString s m p) <->
  exists mx my, Mouse.x m = Some mx /\ Mouse.y m = Some my /\
                distance_to p mx my < Mouse.radius m /\
                sh = mouseLine toString s m p (distance_to p mx my).
Proof.
  unfold line_to_mouse. split.
  - destruct (Mouse.x m) as [mx|]; [|contradiction].
    destruct (Mouse.y m) as [my|]; [|contradiction].
    destruct (Num.ltb _ _) eqn:E; [|contradiction].
    apply ltb_lt in E. intros [<-|[]]. exists mx, my. auto.
  - intros (mx & my & -> & -> & Hd & ->).
    apply ltb_lt in Hd. rewrite Hd. left. reflexivity.
Qed.

(** Every line of a frame comes from a pair of particles that are near, or
    from a particle that is near the cursor. *)
Lemma in_lines (s : Settings.t) (m : Mouse.t) (ps : list Particle.t)
  (sh : Ctx.Shape) :
  In sh (lines toString s m ps) ->
  (exists p q, In p ps /\ In q ps /\
               distance p q < Settings.connectionDistance s /\
               sh = connectionLine toString s p q (distance p q))
  \/
  (exists p mx my, In p ps /\ Mouse.x m = Some mx /\ Mouse.y m = Some my /\
                   distance_to p mx my < Mouse.radius m /\
                   sh = mouseLine toString s m p (distance_to p mx my)).
Proof.
  induction ps as [|p ps IH]; simpl; [contradiction|].
  rewrite !in_app_iff. intros [H|[H|H]].
  - apply in_lines_from in H. destruct H as (q & Hq & Hd & ->).
    left. exists p, q. auto.
  - apply in_line_to_mouse in H. destruct H as (mx & my & Hx & Hy & Hd & ->).
    right. exists p, mx, my. auto.
  - destruct (IH H) as [(a & b & Ha & Hb & Hd & ->)|(a & mx & my & Ha & Hr)].
    + left. exists a, b. auto.
    + right. exists a, mx, my. auto.
Qed.


(** A particle near the cursor has its line. *)
Lemma lines_of_mouse (s : Settings.t) (m : Mouse.t) (ps : list Particle.t)
  (p : Particle.t) (mx my : R) :
  In p ps -> Mouse.x m = Some mx -> Mouse.y m = Some my ->
  distance_to p mx my < Mouse.radius m ->
  In (mouseLine toString s m p (distance_to p mx my)) (lines toString s m ps).
Proof.
  intros Hp Hx Hy Hd. induction ps as [|a ps IH]; [contradiction|].
  simpl. rewrite !in_app_iff. destruct Hp as [->|Hp].
  - right. left. apply in_line_to_mouse. exists mx, my. auto.
  - right. right. auto.
Qed.

(** No cursor, no line to it. *)
Lemma lines_without_mouse (s : Settings.t) (m : Mouse.t) (ps : list Particle.t) :
  present m = false -> lines toString s m ps = particle_lines toString s ps.
Proof.
  intros H. induction ps as [|p ps IH]; simpl; [reflexivity|].
  rewrite IH. unfold line_to_mouse. unfold present in H.
  destruct (Mouse.x m); [destruct (Mouse.y m); [discriminate|]|]; reflexivity.
Qed.

Lemma disc_not_stroked (s : Settings.t) (ps : list Particle.t)
  (path : list Ctx.Seg) (style : string) (w : R) :
  ~ In (Ctx.Stroked path style w) (map (disc toString s) ps).
Proof.
  rewrite in_map_iff. intros (p & H & _). discriminate.
Qed.

End Lines.

(* ================================================================= *)
(** ** Loops that keep an invariant; the particle set *)

Lemma for_range_keeps {S : Type} (Inv : S -> Prop) (body : nat -> S -> S) :
  (forall i s, Inv s -> Inv (body i s)) ->
  forall lo hi s, Inv s -> Inv (for_range lo hi body s).
Proof.
  intros Hbody lo hi. unfold for_range.
  generalize (hi - lo)%nat as n. intros n. revert lo.
  induction n as [|n IH]; intros lo s Hs; simpl; auto.
Qed.

Lemma for_range_counts {S : Type} (f : S -> nat) (body : nat -> S -> S) :
  (forall i s, f (body i s) = Datatypes.S (f s)) ->
  forall lo hi s, f (for_range lo hi body s) = (f s + (hi - lo))%nat.
Proof.
  intros Hbody lo hi. unfold for_range.
  generalize (hi - lo)%nat as n. intros n. revert lo.
  induction n as [|n IH]; intros lo s; simpl; [lia|].
  rewrite IH, Hbody. lia.
Qed.

Lemma newParticle_created (na : NetworkAnimation) (g : Math.Rng) :
  settings na = the_settings ->
  0 <= Canvas.width (canvas na) -> 0 <= Canvas.height (canvas na) ->
  Math.unit_interval g ->
  as_created (canvas na) (fst (newParticle na g)) /\
  Math.unit_interval (snd (newParticle na g)).
Proof.
  intros Hs Hw Hh Hg. unfold newParticle. rewrite Hs. simpl.
  pose proof (Hg 0%nat) as H1. pose proof (Hg 1%nat) as H2.
  pose proof (Hg 2%nat) as H3. pose proof (Hg 3%nat) as H4.
  pose proof (Hg 4%nat) as H5. pose proof (Hg 5%nat) as H6.
  split; [|intros k; apply Hg].
  unfold as_created; simpl. repeat split; nra.
Qed.

Lemma pushParticle_eq (st : NetworkAnimation * Math.Rng) :
  pushParticle st
  = (set_particles
       (particles (fst st) ++ [fst (newParticle (fst st) (snd st))]) (fst st),
     snd (newParticle (fst st) (snd st))).
Proof.
  destruct st as [na g]. cbn [fst snd]. unfold pushParticle.
  destruct (newParticle na g) as [p g']. reflexivity.
Qed.

Lemma pushParticle_frame (st : NetworkAnimation * Math.Rng) :
  canvas (fst (pushParticle st)) = canvas (fst st) /\
  ctx (fst (pushParticle st)) = ctx (fst st) /\
  mouse (fst (pushParticle st)) = mouse (fst st) /\
  settings (fst (pushParticle st)) = settings (fst st).
Proof.
  destruct st as [na g]. unfold pushParticle.
  destruct (newParticle na g) as [p g']. simpl. auto.
Qed.

Lemma pushParticle_length (st : NetworkAnimation * Math.Rng) :
  List.length (particles (fst (pushParticle st)))
  = S (List.length (particles (fst st))).
Proof.
  destruct st as [na g]. unfold pushParticle.
  destruct (newParticle na g) as [p g']. simpl.
  rewrite length_app. simpl. lia.
Qed.

(** [createParticles] writes the particles and nothing else. *)
Lemma createParticles_frame (na : NetworkAnimation) (g : Math.Rng) :
  canvas (fst (createParticles na g)) = canvas na /\
  ctx (fst (createParticles na g)) = ctx na /\
  mouse (fst (createParticles na g)) = mouse na /\
  settings (fst (createParticles na g)) = settings na.
Proof.
  unfold createParticles.
  apply (for_range_keeps
           (fun st => canvas (fst st) = canvas na /\ ctx (fst st) = ctx na /\
                      mouse (fst st) = mouse na /\ settings (fst st) = settings na)).
  - intros _ st (Hc & Hx & Hm & Hs).
    destruct (pushParticle_frame st) as (Hc' & Hx' & Hm' & Hs').
    rewrite Hc', Hx', Hm', Hs'. auto.
  - simpl. auto.
Qed.

(** [createParticles] leaves as many particles as the settings count. *)
Lemma createParticles_length (na : NetworkAnimation) (g : Math.Rng) :
  List.length (particles (fst (createParticles na g)))
  = Settings.particleCount (settings na).
Proof.
  unfold createParticles.
  rewrite (for_range_counts (fun st => List.length (particles (fst st)))).
  - simpl. lia.
  - intros _ st. apply pushParticle_length.
Qed.

Lemma resize_frame (win : Window.t) (na : NetworkAnimation) :
  canvas (resize win na) = Canvas.mk (Window.innerWidth win) (Window.innerHeight win) /\
  particles (resize win na) = particles na /\
  mouse (resize win na) = mouse na /\
  settings (resize win na) = settings na.
Proof. unfold resize. simpl. auto. Qed.

(* ================================================================= *)
(** ** The pages the host can reach *)

Section Pages.

Variable toString : R -> string.

Lemma animate_configured (na : NetworkAnimation) :
  configured na -> configured (animate toString na).
Proof.
  intros (Hs & Hr & Hn). destruct (animate_frame toString na) as (_ & Hp & Hm & Hs' & _).
  unfold configured. rewrite Hp, Hm, Hs', length_map. auto.
Qed.

Lemma regenerate_configured (win : Window.t) (na : NetworkAnimation) (g : Math.Rng) :
  settings na = the_settings -> Mouse.radius (mouse na) = 150 ->
  configured (fst (createParticles (resize win na) g)).
Proof.
  intros Hs Hr.
  destruct (createParticles_frame (resize win na) g) as (_ & _ & Hm & Hs').
  destruct (resize_frame win na) as (_ & _ & Hm2 & Hs2).
  unfold configured.
  rewrite createParticles_length, Hm, Hs', Hm2, Hs2, Hs. auto.
Qed.

Lemma constructor_configured (el : Canvas.t) (win : Window.t) (g : Math.Rng) :
  configured (this (constructor toString el win g)).
Proof.
  unfold constructor, init.
  set (na0 := mkNetworkAnimation el Ctx.fresh [] the_mouse the_settings).
  pose proof (regenerate_configured win na0 g eq_refl eq_refl) as H.
  destruct (createParticles (resize win na0) g) as [na g']. simpl in *.
  apply animate_configured. exact H.
Qed.

Lemma deliver_configured (e : Event) (pg : Page) :
  configured (this pg) -> configured (this (deliver toString e pg)).
Proof.
  intros H. destruct e as [|win|cx cy|]; simpl.
  - apply animate_configured. exact H.
  - destruct H as (Hs & Hr & _). unfold on_resize. simpl.
    pose proof (regenerate_configured win (this pg) (rng pg) Hs Hr) as H.
    destruct (createParticles _ _) as [na g']. exact H.
  - destruct H as (Hs & Hr & Hn). unfold configured. simpl. auto.
  - destruct H as (Hs & Hr & Hn). unfold configured. simpl. auto.
Qed.

Lemma run_configured (es : list Event) :
  forall pg : Page, configured (this pg) -> configured (this (run toString es pg)).
Proof.
  induction es as [|e es IH]; intros pg H; simpl; [exact H|].
  apply IH. apply deliver_configured. exact H.
Qed.

Lemma reachable_configured (el : Canvas.t) (win : Window.t) (g : Math.Rng)
  (es : list Event) :
  configured (this (run toString es (constructor toString el win g))).
Proof. apply run_configured, constructor_configured. Qed.

End Pages.

(* ================================================================= *)
(** ** The properties of the particle field *)

Section Field.

Variable toString : R -> string.




Lemma below_toFixed_limit (v : R) : v <= 1 -> v < 10 ^ 21.
Proof.
  intros H. assert (1 <= 10 ^ 21) by (apply pow_R1_Rle; lra).
  assert (10 ^ 21 = 10 * 10 ^ 20) by reflexivity.
  assert (1 <= 10 ^ 20) by (apply pow_R1_Rle; lra). lra.
Qed.

(** [toFixed(2)] of a number between 0 and 1. *)
Lemma toFixed2_unit (v : R) :
  0 <= v <= 1 -> Num.toFixed2 toString v = Num.fixed2 (Num.hundredths v).
Proof.
  intros H. unfold Num.toFixed2.
  pose proof (below_toFixed_limit v (proj2 H)) as Hbig.
  order_numbers. reflexivity.
Qed.

Lemma connectionStyle_text (d : R) :
  connectionStyle toString the_settings d
  = ("rgba(37, 99, 235, "
       ++ Num.toFixed2 toString (alpha 0.15 d 150) ++ ")")%string.
Proof. reflexivity. Qed.

Lemma mouseStyle_text (m : Mouse.t) (d : R) :
  mouseStyle toString the_settings m d
  = ("rgba(6, 182, 212, "
       ++ Num.toFixed2 toString (alpha 0.3 d (Mouse.radius m)) ++ ")")%string.
Proof. reflexivity. Qed.

Lemma drawConnection_style (p1 p2 : Particle.t) (d : R) (na : NetworkAnimation) :
  Ctx.strokeStyle (ctx (drawConnection toString p1 p2 d na))
  = connectionStyle toString (settings na) d.
Proof. reflexivity. Qed.

(** C2, as the script has it.  A line between two particles at a distance
    [d] below 150 is stroked in the connection colour with its alpha
    replaced by [toFixed(2)] of the double that the script computes for
    [0.15 * (1 - d / 150)]: the text of [n / 100] for an integer [n] between
    0 and 15, within 0.005 of that double, which is within 1e-15 of the
    exact value.  The exact value decreases strictly with the distance and
    is 0 at 150; the alpha that is drawn never increases with the
    distance. *)
Theorem connection_opacity_rounded (na : NetworkAnimation) (p1 p2 : Particle.t)
  (d : R) :
  settings na = the_settings ->
  0 <= d < 150 ->
  let v := 0.15 * (1 - d / 150) in
  let x := alpha 0.15 d 150 in
  let n := Num.hundredths x in
  Ctx.strokeStyle (ctx (drawConnection toString p1 p2 d na))
  = ("rgba(37, 99, 235, " ++ Num.fixed2 n ++ ")")%string
  /\ (0 <= n <= 15)%Z
  /\ Rabs (x - v) <= 1e-15
  /\ Rabs (IZR n / 100 - x) <= 0.005
  /\ (forall d2, d < d2 -> 0.15 * (1 - d2 / 150) < v)
  /\ 0.15 * (1 - 150 / 150) = 0
  /\ (forall d2, d <= d2 -> d2 < 150 ->
                 (Num.hundredths (alpha 0.15 d2 150) <= n)%Z).
Proof.
  intros Hs Hd v x n.
  destruct (alpha_close 0.15 d 150) as [Hx Hc]; try lra.
  fold x in Hx, Hc. fold v in Hc.
  assert (Hv : 0 <= v <= 0.15) by (unfold v; lra).
  pose proof (hundredths_bounds x) as Hn. fold n in Hn.
  assert (Hc' := Hc). apply Rabs_bounds in Hc'.
  split; [|split; [|split; [exact Hc|split; [|split; [|split]]]]].
  - rewrite drawConnection_style, Hs, connectionStyle_text. fold x.
    rewrite toFixed2_unit by exact Hx. reflexivity.
  - split.
    + apply Z.lt_succ_r. apply lt_IZR. rewrite succ_IZR. simpl. lra.
    + apply Z.lt_succ_r. apply lt_IZR. rewrite succ_IZR. lra.
  - apply Rabs_le. lra.
  - intros d2 H. unfold v. lra.
  - lra.
  - intros d2 H1 H2. apply hundredths_mono. apply alpha_mono; lra.
Qed.

(** What the edge test does: an update negates [speedX] exactly when the
    particle starts it with [x] below 0 or above the width of the surface,
    whatever the sign of [speedX], and leaves it alone otherwise; the same
    for [speedY] and the height.  The position is not clamped: the particle
    advances from where it is by the velocity it has after the test. *)
Lemma bounce_by_position (na : NetworkAnimation) (p : Particle.t) :
  let p' := updateParticle na p in
  let w := Canvas.width (canvas na) in
  let h := Canvas.height (canvas na) in
  (Particle.x p < 0 \/ w < Particle.x p -> Particle.speedX p' = - Particle.speedX p)
  /\ (0 <= Particle.x p <= w -> Particle.speedX p' = Particle.speedX p)
  /\ (Particle.y p < 0 \/ h < Particle.y p -> Particle.speedY p' = - Particle.speedY p)
  /\ (0 <= Particle.y p <= h -> Particle.speedY p' = Particle.speedY p)
  /\ Particle.x (advance (bounce na p)) = Particle.x p + Particle.speedX p'
  /\ Particle.y (advance (bounce na p)) = Particle.y p + Particle.speedY p'.
Proof.
  intros p' w h.
  assert (Hx : Particle.speedX p' = Particle.speedX (bounce na p)).
  { unfold p', updateParticle, repel.
    destruct (Mouse.x (mouse na)); [|reflexivity].
    destruct (Mouse.y (mouse na)); [|reflexivity].
    destruct (Num.ltb _ _); reflexivity. }
  assert (Hy : Particle.speedY p' = Particle.speedY (bounce na p)).
  { unfold p', updateParticle, repel.
    destruct (Mouse.x (mouse na)); [|reflexivity].
    destruct (Mouse.y (mouse na)); [|reflexivity].
    destruct (Num.ltb _ _); reflexivity. }
  rewrite Hx, Hy. unfold advance, bounce, Num.gtb. simpl. fold w h.
  repeat split.
  - intros [H|H].
    + apply ltb_lt in H. rewrite H. simpl. ring.
    + apply ltb_lt in H. rewrite H, orb_true_r. ring.
  - intros [H1 H2]. apply ltb_ge in H1, H2. rewrite H1, H2. reflexivity.
  - intros [H|H].
    + apply ltb_lt in H. rewrite H. simpl. ring.
    + apply ltb_lt in H. rewrite H, orb_true_r. ring.
  - intros [H1 H2]. apply ltb_ge in H1, H2. rewrite H1, H2. reflexivity.
Qed.

(** The push on a particle that is level with the cursor and on its left:
    along the negative x axis. *)
Lemma repel_left_of_cursor (na : NetworkAnimation) (p : Particle.t) (mx my : R) :
  Mouse.x (mouse na) = Some mx -> Mouse.y (mouse na) = Some my ->
  Particle.y p = my -> Particle.x p < mx ->
  mx - Particle.x p < Mouse.radius (mouse na) ->
  let r := Mouse.radius (mouse na) in
  Particle.x (repel na p) = Particle.x p - (r - (mx - Particle.x p)) / r * 0.5
  /\ Particle.y (repel na p) = Particle.y p.
Proof.
  intros Hx Hy Hlevel Hleft Hnear r. unfold repel. rewrite Hx, Hy.
  replace (Particle.y p - my) with 0 by lra.
  rewrite distance_of_axis, Rabs_left by lra.
  rewrite atan2_negative_axis by lra.
  unfold Math.cos, Math.sin, Math.PI. rewrite cos_PI, sin_PI.
  fold r. replace (Num.ltb (- (Particle.x p - mx)) r) with true
    by (symmetry; apply ltb_lt; unfold r; lra).
  simpl. split; lra.
Qed.

(** C4.  The cursor is at (5, 0) with radius 150 and the particle is at
    (0, 0) once it has advanced.  Its distance to the cursor is 5, below
    150, so the update moves it by [(150 - 5) / 150 * 0.5] along the
    negative x axis, away from the cursor, and leaves [y] alone; the frame
    then strokes a line from the particle to the cursor whose alpha reads
    0.29, which is [0.3 * (1 - 5 / 150)]. *)
Theorem cursor_scenario (na : NetworkAnimation) (p : Particle.t) :
  settings na = the_settings ->
  mouse na = Mouse.mk (Some 5) (Some 0) 150 ->
  In p (particles na) ->
  Particle.x (advance (bounce na p)) = 0 ->
  Particle.y (advance (bounce na p)) = 0 ->
  let p' := updateParticle na p in
  distance_to (advance (bounce na p)) 5 0 = 5
  /\ Particle.x p' = 0 - (150 - 5) / 150 * 0.5
  /\ Particle.x p' < 0
  /\ Particle.y p' = 0
  /\ In (Ctx.Stroked
           [Ctx.MoveTo (Particle.x p') (Particle.y p'); Ctx.LineTo 5 0]
           "rgba(6, 182, 212, 0.29)" 1.5)
        (Ctx.painted (ctx (animate toString na)))
  /\ 0.29 = 0.3 * (1 - 5 / 150).
Proof.
  intros Hs Hm Hin Hx0 Hy0 p'.
  assert (Hmx : Mouse.x (mouse na) = Some 5) by (rewrite Hm; reflexivity).
  assert (Hmy : Mouse.y (mouse na) = Some 0) by (rewrite Hm; reflexivity).
  assert (Hr : Mouse.radius (mouse na) = 150) by (rewrite Hm; reflexivity).
  destruct (repel_left_of_cursor na (advance (bounce na p)) 5 0 Hmx Hmy)
    as [Hx' Hy']; try (rewrite ?Hr; lra).
  fold (updateParticle na p) in Hx', Hy'. fold p' in Hx', Hy'.
  rewrite Hr, Hx0 in Hx'. rewrite Hy0 in Hy'.
  assert (Hd : distance_to p' 5 0 = 5 + 145 / 300).
  { unfold distance_to. replace (Particle.y p' - 0) with 0 by lra.
    rewrite distance_of_axis, Rabs_left; lra. }
  repeat split; try lra.
  - unfold distance_to. rewrite Hx0, Hy0.
    replace (0 - 0) with 0 by lra. rewrite distance_of_axis, Rabs_left; lra.
  - destruct (animate_frame toString na) as (_ & _ & _ & _ & Hpainted).
    rewrite Hpainted. apply in_or_app. right.
    assert (Hline : In (mouseLine toString (settings na) (mouse na) p'
                          (distance_to p' 5 0))
                      (lines toString (settings na) (mouse na)
                         (map (updateParticle na) (particles na)))).
    { apply lines_of_mouse; try assumption.
      - apply in_map. exact Hin.
      - rewrite Hd, Hr. lra. }
    replace (Ctx.Stroked _ _ _)
      with (mouseLine toString (settings na) (mouse na) p' (distance_to p' 5 0));
      [exact Hline|].
    unfold mouseLine. rewrite Hs, mouseStyle_text, Hd, Hr, Hmx, Hmy.
    destruct (alpha_close 0.3 (5 + 145 / 300) 150) as [Hu Hc]; try lra.
    apply Rabs_bounds in Hc. set (x := alpha 0.3 (5 + 145 / 300) 150) in *.
    rewrite toFixed2_unit by exact Hu.
    rewrite (hundredths_eq x 29) by lra. reflexivity.
Qed.

(** C10.  A particle that has advanced onto the very point of the cursor is
    at distance 0, below the radius: the update moves it by exactly
    [(+0.5, 0)], the full push along the positive x axis that the angle
    [atan2(0, 0) = 0] gives. *)
Theorem repel_on_cursor (na : NetworkAnimation) (p : Particle.t) (cx cy : R) :
  Mouse.x (mouse na) = Some cx -> Mouse.y (mouse na) = Some cy ->
  0 < Mouse.radius (mouse na) ->
  Particle.x (advance (bounce na p)) = cx ->
  Particle.y (advance (bounce na p)) = cy ->
  distance_to (advance (bounce na p)) cx cy = 0
  /\ Math.atan2 0 0 = 0
  /\ Particle.x (updateParticle na p) = cx + 0.5
  /\ Particle.y (updateParticle na p) = cy.
Proof.
  intros Hx Hy Hr Hcx Hcy.
  assert (Hd : distance_of 0 0 = 0) by (rewrite distance_of_axis, Rabs_R0; reflexivity).
  split; [|split; [apply atan2_origin|]].
  - unfold distance_to. rewrite Hcx, Hcy.
    replace (cx - cx) with 0 by lra. replace (cy - cy) with 0 by lra. exact Hd.
  - unfold updateParticle, repel. rewrite Hx, Hy, Hcx, Hcy.
    replace (cx - cx) with 0 by lra. replace (cy - cy) with 0 by lra.
    rewrite Hd, atan2_origin.
    replace (Num.ltb 0 (Mouse.radius (mouse na))) with true
      by (symmetry; apply ltb_lt; exact Hr).
    unfold Math.cos, Math.sin. rewrite cos_0, sin_0. simpl.
    split; [field; lra | lra].
Qed.

Lemma in_particle_lines (s : Settings.t) (ps : list Particle.t) (sh : Ctx.Shape) :
  In sh (particle_lines toString s ps) ->
  exists p q, sh = connectionLine toString s p q (distance p q).
Proof.
  induction ps as [|p ps IH]; simpl; [contradiction|].
  rewrite in_app_iff. intros [H|H]; [|auto].
  apply in_lines_from in H. destruct H as (q & _ & _ & ->). eauto.
Qed.

Lemma repel_without_mouse (na : NetworkAnimation) (p : Particle.t) :
  present (mouse na) = false -> repel na p = p.
Proof.
  unfold present, repel. intros H.
  destruct (Mouse.x (mouse na)); [destruct (Mouse.y (mouse na)); [discriminate|]|];
    reflexivity.
Qed.

(** C5.  In a frame that starts with the cursor absent, an update is the
    reflection at the edges followed by the advance by the velocity and
    nothing more, the surface holds the discs of the particles and the lines
    between particles and nothing more, and no shape on it has the stroke
    width of a line to the cursor. *)
Theorem absent_cursor_is_inert (na : NetworkAnimation) :
  present (mouse na) = false ->
  let ps := map (fun p => advance (bounce na p)) (particles na) in
  (forall p, updateParticle na p = advance (bounce na p))
  /\ particles (animate toString na) = ps
  /\ Ctx.painted (ctx (animate toString na))
     = map (disc toString (settings na)) ps
         ++ particle_lines toString (settings na) ps
  /\ (forall path style,
         ~ In (Ctx.Stroked path style 1.5) (Ctx.painted (ctx (animate toString na)))).
Proof.
  intros Habsent ps.
  assert (Hupd : forall p, updateParticle na p = advance (bounce na p)).
  { intros p. unfold updateParticle. apply repel_without_mouse. exact Habsent. }
  destruct (animate_frame toString na) as (_ & Hp & _ & _ & Hd).
  assert (Hps : map (updateParticle na) (particles na) = ps).
  { apply map_ext. exact Hupd. }
  rewrite Hps in Hp, Hd. rewrite lines_without_mouse in Hd by exact Habsent.
  repeat split; try assumption.
  intros path style. rewrite Hd, in_app_iff. intros [H|H].
  - revert H. apply disc_not_stroked.
  - apply in_particle_lines in H. destruct H as (p & q & E).
    unfold connectionLine in E. inversion E. lra.
Qed.

(** The listener of [mouseout] leaves the cursor absent. *)
Lemma mouseout_absent (pg : Page) : present (mouse (this (on_mouseout pg))) = false.
Proof. reflexivity. Qed.

(** C6.  With the settings of the constructor and a surface of width and
    height at least 0, every particle that [createParticles] makes lies on
    the surface, has its size in [[2, 4]], its opacity in [[0.3, 0.8]] and
    both components of its velocity in [[-0.15, 0.15]]; so it is after
    [init], on the surface of the size of the window. *)
Theorem created_in_range (na : NetworkAnimation) (g : Math.Rng) :
  Math.unit_interval g ->
  settings na = the_settings ->
  (0 <= Canvas.width (canvas na) -> 0 <= Canvas.height (canvas na) ->
   Forall (as_created (canvas na)) (particles (fst (createParticles na g))))
  /\
  (forall win,
      0 <= Window.innerWidth win -> 0 <= Window.innerHeight win ->
      Forall (as_created (Canvas.mk (Window.innerWidth win) (Window.innerHeight win)))
        (particles (fst (init win na g)))).
Proof.
  intros Hg Hs.
  assert (H : forall na0 : NetworkAnimation,
             settings na0 = the_settings ->
             0 <= Canvas.width (canvas na0) -> 0 <= Canvas.height (canvas na0) ->
             Forall (as_created (canvas na0)) (particles (fst (createParticles na0 g)))).
  { clear na Hs. intros na Hs Hw Hh. unfold createParticles.
    set (Inv := fun st : NetworkAnimation * Math.Rng =>
                  canvas (fst st) = canvas na /\ settings (fst st) = the_settings /\
                  Math.unit_interval (snd st) /\
                  Forall (as_created (canvas na)) (particles (fst st))).
    apply (for_range_keeps Inv (fun _ st => pushParticle st)).
    - intros _ [na1 g1] (Hc1 & Hs1 & Hg1 & Hall).
      cbn [fst snd] in Hc1, Hs1, Hg1, Hall.
      assert (Hw1 : 0 <= Canvas.width (canvas na1)) by (rewrite Hc1; exact Hw).
      assert (Hh1 : 0 <= Canvas.height (canvas na1)) by (rewrite Hc1; exact Hh).
      pose proof (newParticle_created na1 g1 Hs1 Hw1 Hh1 Hg1) as [Hnew Hg2].
      unfold Inv. rewrite pushParticle_eq.
      cbn [fst snd set_particles canvas settings particles].
      split; [exact Hc1|]. split; [exact Hs1|]. split; [exact Hg2|].
      apply Forall_app. split; [exact Hall|].
      constructor; [|constructor]. rewrite <- Hc1. exact Hnew.
    - unfold Inv. simpl. auto. }
  split.
  - apply H. exact Hs.
  - intros win Hw Hh. unfold init.
    destruct (resize_frame win na) as (Hc & _ & _ & Hs').
    rewrite <- Hc. apply H; rewrite ?Hc, ?Hs'; assumption.
Qed.

(** C7.  Whatever the host delivers after the constructor, resizes
    included, the page holds 80 particles; [createParticles] always leaves
    as many particles as the settings count, and a frame keeps their
    number. *)
Theorem particle_count_constant :
  (forall el win g es,
      List.length (particles (this (run toString es (constructor toString el win g))))
      = 80%nat)
  /\ (forall na g,
         List.length (particles (fst (createParticles na g)))
         = Settings.particleCount (settings na))
  /\ (forall na,
         List.length (particles (animate toString na)) = List.length (particles na)).
Proof.
  split; [|split].
  - intros el win g es. apply (reachable_configured toString el win g es).
  - apply createParticles_length.
  - intros na. destruct (animate_frame toString na) as (_ & Hp & _).
    rewrite Hp. apply length_map.
Qed.

Lemma updateParticle_keeps (na : NetworkAnimation) (p : Particle.t) :
  Particle.size (updateParticle na p) = Particle.size p /\
  Particle.opacity (updateParticle na p) = Particle.opacity p /\
  Particle.speedX (updateParticle na p) = Particle.speedX (bounce na p) /\
  Particle.speedY (updateParticle na p) = Particle.speedY (bounce na p).
Proof.
  unfold updateParticle, repel.
  destruct (Mouse.x (mouse na)); [|simpl; auto].
  destruct (Mouse.y (mouse na)); [|simpl; auto].
  destruct (Num.ltb _ _); simpl; auto.
Qed.

(** C8.  An update leaves the size and the opacity of a particle as they
    were, with or without a cursor; so does a frame for every particle of
    the page, and the listeners of the pointer do not touch the particles. *)
Theorem size_and_opacity_fixed :
  (forall na p,
      Particle.size (updateParticle na p) = Particle.size p /\
      Particle.opacity (updateParticle na p) = Particle.opacity p)
  /\ (forall na,
         map Particle.size (particles (animate toString na))
         = map Particle.size (particles na) /\
         map Particle.opacity (particles (animate toString na))
         = map Particle.opacity (particles na))
  /\ (forall pg cx cy,
         particles (this (on_mousemove cx cy pg)) = particles (this pg) /\
         particles (this (on_mouseout pg)) = particles (this pg)).
Proof.
  split; [|split].
  - intros na p. destruct (updateParticle_keeps na p) as (H1 & H2 & _). auto.
  - intros na. destruct (animate_frame toString na) as (_ & Hp & _).
    rewrite Hp, !map_map. split; apply map_ext; intros p; apply updateParticle_keeps.
  - intros pg cx cy. split; reflexivity.
Qed.

Lemma bounce_speed (na : NetworkAnimation) (p : Particle.t) :
  (Particle.speedX (bounce na p) = Particle.speedX p \/
   Particle.speedX (bounce na p) = - Particle.speedX p) /\
  (Particle.speedY (bounce na p) = Particle.speedY p \/
   Particle.speedY (bounce na p) = - Particle.speedY p).
Proof.
  unfold bounce. simpl. split.
  - destruct (_ || _); [right; ring | left; reflexivity].
  - destruct (_ || _); [right; ring | left; reflexivity].
Qed.

(** C9.  An update keeps the absolute value of each component of the
    velocity: the component is what it was, or its negation; so does a frame
    for every particle of the page. *)
Theorem speed_magnitude_kept :
  (forall na p,
      let p' := updateParticle na p in
      (Particle.speedX p' = Particle.speedX p \/ Particle.speedX p' = - Particle.speedX p)
      /\ (Particle.speedY p' = Particle.speedY p \/ Particle.speedY p' = - Particle.speedY p)
      /\ Rabs (Particle.speedX p') = Rabs (Particle.speedX p)
      /\ Rabs (Particle.speedY p') = Rabs (Particle.speedY p))
  /\ (forall na,
         map (fun p => Rabs (Particle.speedX p)) (particles (animate toString na))
         = map (fun p => Rabs (Particle.speedX p)) (particles na) /\
         map (fun p => Rabs (Particle.speedY p)) (particles (animate toString na))
         = map (fun p => Rabs (Particle.speedY p)) (particles na)).
Proof.
  assert (H : forall na p,
             let p' := updateParticle na p in
             (Particle.speedX p' = Particle.speedX p \/ Particle.speedX p' = - Particle.speedX p)
             /\ (Particle.speedY p' = Particle.speedY p \/ Particle.speedY p' = - Particle.speedY p)
             /\ Rabs (Particle.speedX p') = Rabs (Particle.speedX p)
             /\ Rabs (Particle.speedY p') = Rabs (Particle.speedY p)).
  { intros na p p'. destruct (updateParticle_keeps na p) as (_ & _ & Hx & Hy).
    fold p' in Hx, Hy. rewrite Hx, Hy.
    destruct (bounce_speed na p) as [Hbx Hby].
    repeat split; try assumption.
    - destruct Hbx as [->| ->]; [reflexivity | apply Rabs_Ropp].
    - destruct Hby as [->| ->]; [reflexivity | apply Rabs_Ropp]. }
  split; [exact H|].
  intros na. destruct (animate_frame toString na) as (_ & Hp & _).
  rewrite Hp, !map_map. split; apply map_ext; intros p; apply (H na p).
Qed.

End Field.

(* ================================================================= *)
(** ** The properties at work *)

Lemma bounce_inside (na : NetworkAnimation) (p : Particle.t) :
  0 <= Particle.x p <= Canvas.width (canvas na) ->
  0 <= Particle.y p <= Canvas.height (canvas na) ->
  bounce na p = p.
Proof.
  intros [H1 H2] [H3 H4]. unfold bounce, Num.gtb.
  apply ltb_ge in H1, H2, H3, H4. rewrite H1, H2, H3, H4.
  destruct p; reflexivity.
Qed.

Lemma bounce_left_of_surface (na : NetworkAnimation) (p : Particle.t) :
  Particle.x p < 0 -> Particle.speedX (bounce na p) = - Particle.speedX p.
Proof.
  intros H. unfold bounce. simpl. apply ltb_lt in H. rewrite H. simpl. ring.
Qed.

Lemma update_without_mouse (na : NetworkAnimation) (p : Particle.t) :
  present (mouse na) = false ->
  Particle.x (updateParticle na p) = Particle.x p + Particle.speedX (bounce na p) /\
  Particle.y (updateParticle na p) = Particle.y p + Particle.speedY (bounce na p).
Proof.
  intros H. unfold updateParticle. rewrite repel_without_mouse by exact H.
  split; reflexivity.
Qed.




(** The double the script computes for the distance 5, and its two
    decimals: 0.14, where the exact value is 0.145. *)
Lemma alpha_at_5 : Num.hundredths (alpha 0.15 5 150) = 14%Z.
Proof.
  unfold alpha.
  rewrite (round_between (5 / 150) (/ 32) (/ 144115188075855872) (-5) 4803839602528529);
    [| exact (pow2_neg_lit 5 _ eq_refl) | exact (pow2_neg_lit 57 _ eq_refl) | lra | lra ].
  rewrite (round_between (1 - _) (/ 2) (/ 9007199254740992) (-1) 8706959279582959);
    [| exact (pow2_neg_lit 1 _ eq_refl) | exact (pow2_neg_lit 53 _ eq_refl) | lra | lra ].
  rewrite (round_between 0.15 (/ 8) (/ 36028797018963968) (-3) 5404319552844595);
    [| exact (pow2_neg_lit 3 _ eq_refl) | exact (pow2_neg_lit 55 _ eq_refl) | lra | lra ].
  rewrite (round_between (_ * _) (/ 8) (/ 36028797018963968) (-3) 5224175567749775);
    [| exact (pow2_neg_lit 3 _ eq_refl) | exact (pow2_neg_lit 55 _ eq_refl) | lra | lra ].
  apply hundredths_eq. lra.
Qed.

(** Likewise 0.07 at the distance 75, where the exact value is 0.075, and
    0.00 at the distance 145, where it is 0.005. *)
Lemma alpha_at_75 : Num.hundredths (alpha 0.15 75 150) = 7%Z.
Proof.
  unfold alpha.
  rewrite (round_between (75 / 150) (/ 2) (/ 9007199254740992) (-1) 4503599627370496);
    [| exact (pow2_neg_lit 1 _ eq_refl) | exact (pow2_neg_lit 53 _ eq_refl) | lra | lra ].
  rewrite (round_between (1 - _) (/ 2) (/ 9007199254740992) (-1) 4503599627370496);
    [| exact (pow2_neg_lit 1 _ eq_refl) | exact (pow2_neg_lit 53 _ eq_refl) | lra | lra ].
  rewrite (round_between 0.15 (/ 8) (/ 36028797018963968) (-3) 5404319552844595);
    [| exact (pow2_neg_lit 3 _ eq_refl) | exact (pow2_neg_lit 55 _ eq_refl) | lra | lra ].
  rewrite (round_between (_ * _) (/ 16) (/ 72057594037927936) (-4) 5404319552844595);
    [| exact (pow2_neg_lit 4 _ eq_refl) | exact (pow2_neg_lit 56 _ eq_refl) | lra | lra ].
  apply hundredths_eq. lra.
Qed.

Lemma alpha_at_145 : Num.hundredths (alpha 0.15 145 150) = 0%Z.
Proof.
  unfold alpha.
  rewrite (round_between (145 / 150) (/ 2) (/ 9007199254740992) (-1) 8706959279582959);
    [| exact (pow2_neg_lit 1 _ eq_refl) | exact (pow2_neg_lit 53 _ eq_refl) | lra | lra ].
  rewrite (round_between (1 - _) (/ 32) (/ 144115188075855872) (-5) 4803839602528528);
    [| exact (pow2_neg_lit 5 _ eq_refl) | exact (pow2_neg_lit 57 _ eq_refl) | lra | lra ].
  rewrite (round_between 0.15 (/ 8) (/ 36028797018963968) (-3) 5404319552844595);
    [| exact (pow2_neg_lit 3 _ eq_refl) | exact (pow2_neg_lit 55 _ eq_refl) | lra | lra ].
  rewrite (round_between (_ * _) (/ 256) (/ 1152921504606846976) (-8) 5764607523034233);
    [| exact (pow2_neg_lit 8 _ eq_refl) | exact (pow2_neg_lit 60 _ eq_refl) | lra | lra ].
  apply hundredths_eq. lra.
Qed.

(** At a distance of 5 the alpha of the line reads 0.14. *)
Lemma connection_opacity_rounded_witness :
  settings empty_field = the_settings /\ 0 <= 5 < 150 /\
  Ctx.strokeStyle
    (ctx (drawConnection text_of_half (particle_at 0 0 0 0) (particle_at 5 0 0 0)
            5 empty_field))
  = "rgba(37, 99, 235, 0.14)"%string.
Proof.
  split; [reflexivity|]. split; [lra|].
  destruct (connection_opacity_rounded text_of_half empty_field
              (particle_at 0 0 0 0) (particle_at 5 0 0 0) 5 eq_refl) as [H _];
    [lra|].
  rewrite H, alpha_at_5. reflexivity.
Defined.

(** Two decimals of the double for a distance whose exact value is not
    within 1e-14 of a half of a hundredth. *)
Lemma hundredths_of_alpha (base d r : R) (n : Z) :
  0 <= base <= 1 -> 0 < r -> 0 <= d <= r ->
  IZR n + 1e-12 <= base * (1 - d / r) * 100 + / 2 <= IZR n + 1 - 1e-12 ->
  0 <= alpha base d r <= 1 /\ Num.hundredths (alpha base d r) = n.
Proof.
  intros Hb Hr Hd Hn. destruct (alpha_close base d r Hb Hr Hd) as [Hx Hc].
  split; [exact Hx|]. apply Rabs_bounds in Hc.
  set (t := base * (1 - d / r)) in *. clearbody t. apply hundredths_eq. lra.
Qed.

(** C2 fails as stated: at the distances 1 and 2 the line is stroked with
    the same alpha, 0.15, which is neither of [0.15 * (1 - 1 / 150)] and
    [0.15 * (1 - 2 / 150)], and does not decrease from the one distance to
    the other. *)
Lemma connection_opacity_not_strict :
  let style d :=
    Ctx.strokeStyle
      (ctx (drawConnection text_of_half (particle_at 0 0 0 0) (particle_at d 0 0 0)
              d empty_field)) in
  style 1 = "rgba(37, 99, 235, 0.15)"%string
  /\ style 2 = "rgba(37, 99, 235, 0.15)"%string
  /\ 0.15 * (1 - 2 / 150) < 0.15 * (1 - 1 / 150) < 0.15.
Proof.
  intros style. unfold style.
  rewrite !drawConnection_style.
  change (settings empty_field) with the_settings.
  rewrite !connectionStyle_text.
  destruct (hundredths_of_alpha 0.15 1 150 15) as [U1 E1]; try lra.
  destruct (hundredths_of_alpha 0.15 2 150 15) as [U2 E2]; try lra.
  rewrite !toFixed2_unit by assumption. rewrite E1, E2.
  split; [reflexivity|]. split; [reflexivity | lra].
Qed.

(** C3.  The script breaks the claim.  A particle at (0.1, 0) with
    velocity (-0.15, 0) leaves through the left edge while the cursor, at
    (5, 0), pushes it farther out; the cursor goes; the second update
    reflects the particle, which is then still left of the surface and
    moving inward; the third update negates its [speedX] again and sends it
    outward, where the claim has the sign left alone. *)
Lemma bounce_flips_inward_particle :
  let p1 := updateParticle cursor_field (particle_at 0.1 0 (-0.15) 0) in
  let p2 := updateParticle empty_field p1 in
  let p3 := updateParticle empty_field p2 in
  (Particle.x p2 < 0 /\ Particle.speedX p2 = 0.15)
  /\ Particle.speedX p3 = -0.15
  /\ Particle.x p3 < Particle.x p2.
Proof.
  intros p1 p2 p3.
  set (p0 := particle_at 0.1 0 (-0.15) 0) in *.
  assert (B0 : bounce cursor_field p0 = p0) by (apply bounce_inside; simpl; lra).
  assert (X1 : Particle.x p1 = -0.05 - (150 - 5.05) / 150 * 0.5
               /\ Particle.y p1 = 0).
  { destruct (repel_left_of_cursor cursor_field (advance (bounce cursor_field p0)) 5 0
                eq_refl eq_refl) as [Hx Hy];
      try (rewrite B0; simpl; lra).
    fold (updateParticle cursor_field p0) in Hx, Hy. fold p1 in Hx, Hy.
    rewrite B0 in Hx, Hy. simpl in Hx, Hy. split; lra. }
  assert (S1 : Particle.speedX p1 = -0.15).
  { destruct (updateParticle_keeps cursor_field p0) as (_ & _ & H & _).
    fold p1 in H. rewrite H, B0. reflexivity. }
  destruct X1 as [X1 Y1].
  assert (S2 : Particle.speedX p2 = 0.15).
  { destruct (updateParticle_keeps empty_field p1) as (_ & _ & H & _).
    fold p2 in H. rewrite H, bounce_left_of_surface, S1 by lra. lra. }
  assert (X2 : Particle.x p2 = Particle.x p1 + 0.15).
  { destruct (update_without_mouse empty_field p1 eq_refl) as [H _].
    fold p2 in H. rewrite H, bounce_left_of_surface, S1 by lra. lra. }
  assert (S3 : Particle.speedX p3 = -0.15).
  { destruct (updateParticle_keeps empty_field p2) as (_ & _ & H & _).
    fold p3 in H. rewrite H, bounce_left_of_surface, S2 by lra. lra. }
  assert (X3 : Particle.x p3 = Particle.x p2 - 0.15).
  { destruct (update_without_mouse empty_field p2 eq_refl) as [H _].
    fold p3 in H. rewrite H, bounce_left_of_surface, S2 by lra. lra. }
  repeat split; lra.
Qed.

(** The particle arrives at (0, 0) from (0.1, 0). *)
Lemma cursor_scenario_witness :
  let p := particle_at 0.1 0 (-0.1) 0 in
  let na := set_particles [p] cursor_field in
  (Particle.x (advance (bounce na p)) = 0 /\ Particle.y (advance (bounce na p)) = 0)
  /\ Particle.x (updateParticle na p) = 0 - (150 - 5) / 150 * 0.5
  /\ In (Ctx.Stroked
           [Ctx.MoveTo (Particle.x (updateParticle na p))
              (Particle.y (updateParticle na p));
            Ctx.LineTo 5 0]
           "rgba(6, 182, 212, 0.29)" 1.5)
        (Ctx.painted (ctx (animate text_of_half na))).
Proof.
  intros p na.
  assert (B : bounce na p = p) by (apply bounce_inside; simpl; lra).
  assert (Hx : Particle.x (advance (bounce na p)) = 0) by (rewrite B; simpl; lra).
  assert (Hy : Particle.y (advance (bounce na p)) = 0) by (rewrite B; simpl; lra).
  split; [split; assumption|].
  destruct (cursor_scenario text_of_half na p eq_refl eq_refl (or_introl eq_refl) Hx Hy)
    as (_ & H1 & _ & _ & H2 & _).
  split; assumption.
Defined.

(** The cursor leaves a page of three particles. *)
Lemma absent_cursor_is_inert_witness :
  let pg := mkPage (Window.mk 800 600) halves
              (set_particles three_at_rest cursor_field) in
  let na := this (deliver text_of_half MouseOut pg) in
  present (mouse (this pg)) = true
  /\ present (mouse na) = false
  /\ (forall p, updateParticle na p = advance (bounce na p))
  /\ (forall path style,
         ~ In (Ctx.Stroked path style 1.5)
              (Ctx.painted (ctx (animate text_of_half na)))).
Proof.
  intros pg na. split; [reflexivity|]. split; [reflexivity|].
  destruct (absent_cursor_is_inert text_of_half na eq_refl) as (H1 & _ & _ & H2).
  split; assumption.
Defined.

Lemma halves_unit : Math.unit_interval halves.
Proof. intros k. unfold halves. lra. Qed.

(** The particles of a surface of 800 by 600 when every draw is one half. *)
Lemma created_in_range_witness :
  Math.unit_interval halves
  /\ Forall (as_created (Canvas.mk 800 600))
       (particles (fst (createParticles empty_field halves))).
Proof.
  split; [exact halves_unit|].
  apply (created_in_range empty_field halves halves_unit eq_refl); simpl; lra.
Defined.

(** The particle arrives on the cursor, at (5, 0), from (4.9, 0). *)
Lemma repel_on_cursor_witness :
  let p := particle_at 4.9 0 0.1 0 in
  (Particle.x (advance (bounce cursor_field p)) = 5
   /\ Particle.y (advance (bounce cursor_field p)) = 0)
  /\ Particle.x (updateParticle cursor_field p) = 5 + 0.5
  /\ Particle.y (updateParticle cursor_field p) = 0.
Proof.
  intros p.
  assert (B : bounce cursor_field p = p) by (apply bounce_inside; simpl; lra).
  assert (Hx : Particle.x (advance (bounce cursor_field p)) = 5)
    by (rewrite B; simpl; lra).
  assert (Hy : Particle.y (advance (bounce cursor_field p)) = 0)
    by (rewrite B; simpl; lra).
  split; [split; assumption|].
  destruct (repel_on_cursor cursor_field p 5 0 eq_refl eq_refl) as (_ & _ & H1 & H2);
    try assumption.
  - simpl. lra.
  - split; assumption.
Defined.

(* ================================================================= *)
(** ** The direction and the size of the push of the cursor *)

Lemma slope_norm (dx dy : R) :
  dx <> 0 -> sqrt (1 + Rsqr (dy / dx)) = distance_of dx dy / Rabs dx.
Proof.
  intros H. unfold distance_of, Math.sqrt.
  replace (1 + Rsqr (dy / dx)) with ((dx * dx + dy * dy) / Rsqr dx)
    by (unfold Rsqr; field; exact H).
  rewrite sqrt_div_alt by (apply Rsqr_pos_lt; exact H).
  rewrite sqrt_Rsqr_abs. reflexivity.
Qed.

Lemma cos_less_PI (a : R) : cos (a - PI) = - cos a.
Proof.
  pose proof (neg_cos (a - PI)) as H.
  replace (a - PI + PI) with a in H by ring. lra.
Qed.

Lemma sin_less_PI (a : R) : sin (a - PI) = - sin a.
Proof.
  pose proof (neg_sin (a - PI)) as H.
  replace (a - PI + PI) with a in H by ring. lra.
Qed.

(** The angle [Math.atan2(dy, dx)] points along [(dx, dy)]. *)
Lemma atan2_direction (dx dy : R) :
  0 < distance_of dx dy ->
  Math.cos (Math.atan2 dy dx) = dx / distance_of dx dy /\
  Math.sin (Math.atan2 dy dx) = dy / distance_of dx dy.
Proof.
  intros Hd. unfold Math.cos, Math.sin, Math.atan2, Math.PI.
  destruct (Num.ltb 0 dx) eqn:E1.
  - apply ltb_lt in E1. rewrite cos_atan, sin_atan, slope_norm by lra.
    rewrite Rabs_right by lra. split; field; lra.
  - apply ltb_ge in E1. destruct (Num.ltb dx 0) eqn:E2.
    + apply ltb_lt in E2.
      destruct (Num.ltb dy 0);
        rewrite ?cos_less_PI, ?sin_less_PI, ?neg_cos, ?neg_sin,
          cos_atan, sin_atan, slope_norm by lra;
        rewrite Rabs_left by lra; split; field; lra.
    + apply ltb_ge in E2. assert (dx = 0) by lra. subst dx.
      assert (Hy : distance_of 0 dy = Rabs dy).
      { unfold distance_of, Math.sqrt.
        replace (0 * 0 + dy * dy) with (Rsqr dy) by (unfold Rsqr; ring).
        apply sqrt_Rsqr_abs. }
      rewrite Hy in *.
      destruct (Num.ltb 0 dy) eqn:E3.
      * apply ltb_lt in E3. rewrite cos_PI2, sin_PI2, Rabs_right by lra.
        split; field; lra.
      * apply ltb_ge in E3. destruct (Num.ltb dy 0) eqn:E4.
        -- apply ltb_lt in E4.
           rewrite cos_neg, sin_neg, cos_PI2, sin_PI2, Rabs_left by lra.
           split; field; lra.
        -- apply ltb_ge in E4. assert (dy = 0) by lra. subst dy.
           rewrite Rabs_R0 in Hd. lra.
Qed.

Lemma distance_of_scaled (c dx dy : R) :
  0 <= c -> distance_of (c * dx) (c * dy) = c * distance_of dx dy.
Proof.
  intros Hc. unfold distance_of, Math.sqrt.
  replace (c * dx * (c * dx) + c * dy * (c * dy))
    with ((c * c) * (dx * dx + dy * dy)) by ring.
  rewrite sqrt_mult_alt by nra. rewrite sqrt_square by exact Hc. reflexivity.
Qed.

(** X1.  The cursor pushes a particle within its radius, and not upon it,
    straight away from itself: the particle moves along the line from the
    cursor through it, and its distance to the cursor grows by the force
    times 0.5. *)
Theorem push_is_radial (na : NetworkAnimation) (p : Particle.t) (mx my : R) :
  Mouse.x (mouse na) = Some mx -> Mouse.y (mouse na) = Some my ->
  let q := advance (bounce na p) in
  let d := distance_to q mx my in
  let r := Mouse.radius (mouse na) in
  let push := (r - d) / r * 0.5 in
  0 < d -> d < r ->
  0 < push
  /\ Particle.x (updateParticle na p)
     = Particle.x q + (Particle.x q - mx) / d * push
  /\ Particle.y (updateParticle na p)
     = Particle.y q + (Particle.y q - my) / d * push
  /\ distance_to (updateParticle na p) mx my = d + push.
Proof.
  intros Hx Hy q d r push Hd Hr.
  assert (Hpush : 0 < push).
  { unfold push. apply Rmult_lt_0_compat; [|lra].
    apply Rdiv_lt_0_compat; lra. }
  destruct (atan2_direction (Particle.x q - mx) (Particle.y q - my) Hd) as [Hc Hs].
  fold (distance_to q mx my) in Hc, Hs. fold d in Hc, Hs.
  assert (Ex : Particle.x (updateParticle na p)
               = Particle.x q + (Particle.x q - mx) / d * push).
  { unfold updateParticle, repel. fold q. rewrite Hx, Hy.
    fold (distance_to q mx my). fold d. fold r.
    replace (Num.ltb d r) with true by (symmetry; apply ltb_lt; exact Hr).
    cbn [Particle.x]. rewrite Hc. unfold push. lra. }
  assert (Ey : Particle.y (updateParticle na p)
               = Particle.y q + (Particle.y q - my) / d * push).
  { unfold updateParticle, repel. fold q. rewrite Hx, Hy.
    fold (distance_to q mx my). fold d. fold r.
    replace (Num.ltb d r) with true by (symmetry; apply ltb_lt; exact Hr).
    cbn [Particle.y]. rewrite Hs. unfold push. lra. }
  split; [exact Hpush|]. split; [exact Ex|]. split; [exact Ey|].
  unfold distance_to at 1. rewrite Ex, Ey.
  replace (Particle.x q + (Particle.x q - mx) / d * push - mx)
    with ((1 + push / d) * (Particle.x q - mx)) by (field; lra).
  replace (Particle.y q + (Particle.y q - my) / d * push - my)
    with ((1 + push / d) * (Particle.y q - my)) by (field; lra).
  rewrite distance_of_scaled.
  - fold (distance_to q mx my). fold d. field. lra.
  - assert (0 < push / d) by (apply Rdiv_lt_0_compat; lra). lra.
Qed.

(** X2.  The cursor moves a particle by at most 0.5 along each axis in an
    update, and not at all when it is absent or when the particle is at the
    radius or beyond. *)
Theorem push_is_small (na : NetworkAnimation) (p : Particle.t) :
  let q := advance (bounce na p) in
  Rabs (Particle.x (updateParticle na p) - Particle.x q) <= 0.5
  /\ Rabs (Particle.y (updateParticle na p) - Particle.y q) <= 0.5
  /\ (present (mouse na) = false -> updateParticle na p = q)
  /\ (Mouse.radius (mouse na)
      <= distance_to q (Num.of_nullable (Mouse.x (mouse na)))
           (Num.of_nullable (Mouse.y (mouse na))) ->
      updateParticle na p = q).
Proof.
  intros q. unfold updateParticle. fold q.
  assert (Hzero : Rabs 0 <= 0.5) by (rewrite Rabs_R0; lra).
  unfold repel, present.
  destruct (Mouse.x (mouse na)) as [mx|];
    [|rewrite !Rminus_diag; repeat split; auto].
  destruct (Mouse.y (mouse na)) as [my|];
    [|rewrite !Rminus_diag; repeat split; auto].
  fold (distance_to q mx my). simpl Num.of_nullable.
  set (d := distance_to q mx my). set (r := Mouse.radius (mouse na)).
  destruct (Num.ltb d r) eqn:E.
  - apply ltb_lt in E.
    assert (Hd : 0 <= d) by apply sqrt_pos.
    assert (Hf : 0 <= (r - d) / r <= 1).
    { assert (Hi : 0 < / r) by (apply Rinv_0_lt_compat; lra).
      assert (H1 : r * / r = 1) by (apply Rinv_r; lra).
      unfold Rdiv. split; nra. }
    cbn [Particle.x Particle.y].
    set (f := (r - d) / r) in *.
    set (c := Math.cos _). set (s := Math.sin _).
    assert (Hc : -1 <= c <= 1) by apply COS_bound.
    assert (Hs : -1 <= s <= 1) by apply SIN_bound.
    assert (Hcf : -1 <= c * f <= 1) by nra.
    assert (Hsf : -1 <= s * f <= 1) by nra.
    repeat split.
    + apply Rabs_le. lra.
    + apply Rabs_le. lra.
    + discriminate.
    + intros H. lra.
  - rewrite !Rminus_diag. repeat split; auto.
Qed.

(* ================================================================= *)
(** ** Particles without a cursor stay by the surface *)

Lemma updateParticle_reads (na na' : NetworkAnimation) (p : Particle.t) :
  canvas na' = canvas na -> mouse na' = mouse na ->
  updateParticle na' p = updateParticle na p.
Proof.
  intros Hc Hm. unfold updateParticle, repel, bounce. rewrite Hc, Hm. reflexivity.
Qed.

(** One update along one axis, without a cursor. *)
Lemma axis_step (w x s : R) :
  let s' := if Num.ltb x 0 || Num.gtb x w then s * -1 else s in
  on_or_just_off w x s ->
  on_or_just_off w (x + s') s'
  /\ Rabs s' = Rabs s
  /\ - Rabs s <= x <= w + Rabs s
  /\ (x < 0 \/ w < x -> 0 <= x + s' <= w).
Proof.
  intros s' H. unfold on_or_just_off in *. unfold Num.gtb in s'.
  destruct H as [[H1 H2]|[(H1 & H2 & H3)|(H1 & H2 & H3)]].
  - assert (E : s' = s).
    { unfold s'. apply ltb_ge in H1, H2. rewrite H1, H2. reflexivity. }
    rewrite E. split; [|split; [reflexivity|split]].
    + destruct (Rlt_dec (x + s) 0); [right; left; lra|].
      destruct (Rlt_dec w (x + s)); [right; right; lra | left; lra].
    + pose proof (Rabs_pos s). lra.
    + lra.
  - assert (E : s' = - s).
    { unfold s'. apply ltb_lt in H1. rewrite H1. simpl. ring. }
    rewrite E, Rabs_Ropp. rewrite (Rabs_left s) by lra.
    split; [left; lra|]. split; [reflexivity|]. split; lra.
  - assert (E : s' = - s).
    { unfold s'. apply ltb_lt in H1. rewrite H1, orb_true_r. ring. }
    rewrite E, Rabs_Ropp. rewrite (Rabs_right s) by lra.
    split; [left; lra|]. split; [reflexivity|]. split; lra.
Qed.

Lemma frames_update (toString : R -> string) (na : NetworkAnimation) (n : nat) :
  canvas (Nat.iter n (animate toString) na) = canvas na /\
  mouse (Nat.iter n (animate toString) na) = mouse na /\
  particles (Nat.iter n (animate toString) na)
  = map (Nat.iter n (updateParticle na)) (particles na).
Proof.
  induction n as [|n (Hc & Hm & Hp)]; simpl.
  - rewrite map_id. auto.
  - destruct (animate_frame toString (Nat.iter n (animate toString) na))
      as (Hc' & Hp' & Hm' & _).
    rewrite Hc', Hm', Hp', Hp, map_map. repeat split; try assumption.
    apply map_ext. intros p. apply updateParticle_reads; assumption.
Qed.

Lemma updates_without_mouse (na : NetworkAnimation) (p : Particle.t) (n : nat) :
  present (mouse na) = false ->
  on_or_just_off (Canvas.width (canvas na)) (Particle.x p) (Particle.speedX p) ->
  on_or_just_off (Canvas.height (canvas na)) (Particle.y p) (Particle.speedY p) ->
  let q := Nat.iter n (updateParticle na) p in
  on_or_just_off (Canvas.width (canvas na)) (Particle.x q) (Particle.speedX q)
  /\ on_or_just_off (Canvas.height (canvas na)) (Particle.y q) (Particle.speedY q)
  /\ Rabs (Particle.speedX q) = Rabs (Particle.speedX p)
  /\ Rabs (Particle.speedY q) = Rabs (Particle.speedY p).
Proof.
  intros Habsent Hx Hy. induction n as [|n (IHx & IHy & IHsx & IHsy)]; simpl.
  - auto.
  - set (q := Nat.iter n (updateParticle na) p) in *.
    unfold updateParticle at 1 2 3 4 5 6.
    rewrite repel_without_mouse by exact Habsent.
    destruct (axis_step (Canvas.width (canvas na)) (Particle.x q) (Particle.speedX q) IHx)
      as (Ax & As & _).
    destruct (axis_step (Canvas.height (canvas na)) (Particle.y q) (Particle.speedY q) IHy)
      as (Ay & Bs & _).
    cbn [advance bounce Particle.x Particle.y Particle.speedX Particle.speedY].
    rewrite <- IHsx, <- IHsy. auto.
Qed.

(** X3.  Without a cursor, a particle that starts on the surface is never
    farther off it than one step of its own speed, along either axis, in
    any later frame; and when it is off the surface, the next update brings
    it back onto it. *)
Theorem stays_by_surface (toString : R -> string) (na : NetworkAnimation)
  (n : nat) :
  present (mouse na) = false ->
  let w := Canvas.width (canvas na) in
  let h := Canvas.height (canvas na) in
  particles (Nat.iter n (animate toString) na)
  = map (Nat.iter n (updateParticle na)) (particles na)
  /\
  forall p,
    0 <= Particle.x p <= w -> 0 <= Particle.y p <= h ->
    let q := Nat.iter n (updateParticle na) p in
    - Rabs (Particle.speedX p) <= Particle.x q <= w + Rabs (Particle.speedX p)
    /\ - Rabs (Particle.speedY p) <= Particle.y q <= h + Rabs (Particle.speedY p)
    /\ (Particle.x q < 0 \/ w < Particle.x q ->
        0 <= Particle.x (updateParticle na q) <= w)
    /\ (Particle.y q < 0 \/ h < Particle.y q ->
        0 <= Particle.y (updateParticle na q) <= h).
Proof.
  intros Habsent w h. split; [apply frames_update|].
  intros p Hx Hy q.
  destruct (updates_without_mouse na p n Habsent (or_introl Hx) (or_introl Hy))
    as (Ix & Iy & Sx & Sy).
  fold q in Ix, Iy, Sx, Sy. fold w in Ix. fold h in Iy.
  destruct (axis_step w (Particle.x q) (Particle.speedX q) Ix) as (_ & _ & Bx & Rx).
  destruct (axis_step h (Particle.y q) (Particle.speedY q) Iy) as (_ & _ & By & Ry).
  rewrite Sx in Bx. rewrite Sy in By.
  destruct (update_without_mouse na q Habsent) as [Ex Ey].
  rewrite Ex, Ey. repeat split; try lra.
  - apply Rx; assumption.
  - apply Rx; assumption.
  - apply Ry; assumption.
  - apply Ry; assumption.
Qed.

Lemma stays_by_surface_witness :
  let p := particle_at 799.9 300 0.15 0 in
  let q := Nat.iter 1 (updateParticle empty_field) p in
  present (mouse empty_field) = false
  /\ (0 <= Particle.x p <= 800 /\ 0 <= Particle.y p <= 600)
  /\ - Rabs 0.15 <= Particle.x q <= 800 + Rabs 0.15
  /\ (Particle.x q < 0 \/ 800 < Particle.x q ->
      0 <= Particle.x (updateParticle empty_field q) <= 800).
Proof.
  intros p q. split; [reflexivity|].
  assert (Hx : 0 <= Particle.x p <= 800) by (simpl; lra).
  assert (Hy : 0 <= Particle.y p <= 600) by (simpl; lra).
  split; [split; assumption|].
  destruct (stays_by_surface text_of_half empty_field 1 eq_refl) as [_ H].
  destruct (H p Hx Hy) as (H1 & _ & H2 & _).
  split; assumption.
Defined.

(* ================================================================= *)
(** ** What a frame leaves on the surface *)

Lemma lines_from_length (toString : R -> string) (s : Settings.t) (p : Particle.t)
  (rest : list Particle.t) :
  (List.length (lines_from toString s p rest) <= List.length rest)%nat.
Proof.
  unfold lines_from. induction rest as [|q rest IH]; simpl; [lia|].
  destruct (Num.ltb _ _); simpl; lia.
Qed.

Lemma line_to_mouse_length (toString : R -> string) (s : Settings.t) (m : Mouse.t)
  (p : Particle.t) :
  (List.length (line_to_mouse toString s m p) <= 1)%nat.
Proof.
  unfold line_to_mouse.
  destruct (Mouse.x m); [destruct (Mouse.y m)|]; simpl; try lia.
  destruct (Num.ltb _ _); simpl; lia.
Qed.

Lemma lines_length (toString : R -> string) (s : Settings.t) (m : Mouse.t)
  (ps : list Particle.t) :
  (2 * List.length (lines toString s m ps)
   <= List.length ps * (List.length ps + 1))%nat.
Proof.
  induction ps as [|p ps IH]; simpl; [lia|].
  rewrite !length_app.
  pose proof (lines_from_length toString s p ps).
  pose proof (line_to_mouse_length toString s m p). nia.
Qed.

Lemma lines_stroked (toString : R -> string) (s : Settings.t) (m : Mouse.t)
  (ps : list Particle.t) (sh : Ctx.Shape) :
  In sh (lines toString s m ps) -> exists path style w, sh = Ctx.Stroked path style w.
Proof.
  intros H. apply in_lines in H.
  destruct H as [(p & q & _ & _ & _ & ->)|(p & mx & my & _ & _ & _ & _ & ->)];
    unfold connectionLine, mouseLine; eauto.
Qed.

(** X4.  A frame starts from a blank surface: what it leaves does not depend on
    what was painted before, nor on the path and the styles it finds.  It
    paints the disc of every particle, in the order of the array, and after
    the discs nothing but lines: at most one for each pair of particles and
    one for each particle. *)
Theorem frame_paints_afresh (toString : R -> string) (na : NetworkAnimation)
  (c : Ctx.t) :
  let n := List.length (particles na) in
  let painted := Ctx.painted (ctx (animate toString na)) in
  Ctx.painted (ctx (animate toString (set_ctx c na))) = painted
  /\ firstn n painted
     = map (disc toString (settings na)) (particles (animate toString na))
  /\ (forall sh, In sh (skipn n painted) ->
                 exists path style w, sh = Ctx.Stroked path style w)
  /\ (n <= List.length painted)%nat
  /\ (2 * List.length painted <= n * (n + 3))%nat.
Proof.
  intros n painted.
  destruct (animate_frame toString na) as (_ & Hp & _ & _ & Hd).
  destruct (animate_frame toString (set_ctx c na)) as (_ & _ & _ & _ & Hd').
  simpl in Hd'.
  assert (Hu : map (updateParticle (set_ctx c na)) (particles na)
               = map (updateParticle na) (particles na)).
  { apply map_ext. intros p. apply updateParticle_reads; reflexivity. }
  rewrite Hu in Hd'.
  set (ps := map (updateParticle na) (particles na)) in *.
  assert (Hn : List.length (map (disc toString (settings na)) ps) = n).
  { unfold ps. rewrite !length_map. reflexivity. }
  unfold painted. rewrite Hd', Hd, Hp.
  split; [reflexivity|]. split; [|split; [|split]].
  - rewrite <- Hn, firstn_app, Nat.sub_diag, firstn_all. simpl.
    apply app_nil_r.
  - intros sh. rewrite <- Hn, skipn_app, Nat.sub_diag, skipn_all. simpl.
    apply lines_stroked.
  - rewrite length_app, Hn. lia.
  - rewrite length_app, Hn.
    pose proof (lines_length toString (settings na) (mouse na) ps) as H.
    replace (List.length ps) with n in H by (unfold ps; rewrite length_map; reflexivity).
    nia.
Qed.

Lemma drawMouseConnection_style (toString : R -> string) (p : Particle.t) (d : R)
  (na : NetworkAnimation) :
  Ctx.strokeStyle (ctx (drawMouseConnection toString p d na))
  = mouseStyle toString (settings na) (mouse na) d
  /\ Ctx.lineWidth (ctx (drawMouseConnection toString p d na)) = 1.5.
Proof. split; reflexivity. Qed.

(** X5.  A line to the cursor at a distance [d] below the radius 150 is
    stroked 1.5 wide in the cursor colour with its alpha replaced by
    [toFixed(2)] of the double that the script computes for
    [0.3 * (1 - d / 150)]: the text of [n / 100] for an integer [n] between 0
    and 30, within 0.005 of that double, which is within 1e-15 of the exact
    value; the alpha never increases with the distance. *)
Theorem cursor_opacity_rounded (toString : R -> string) (na : NetworkAnimation)
  (p : Particle.t) (d : R) :
  settings na = the_settings ->
  Mouse.radius (mouse na) = 150 ->
  0 <= d < 150 ->
  let v := 0.3 * (1 - d / 150) in
  let x := alpha 0.3 d 150 in
  let n := Num.hundredths x in
  Ctx.strokeStyle (ctx (drawMouseConnection toString p d na))
  = ("rgba(6, 182, 212, " ++ Num.fixed2 n ++ ")")%string
  /\ Ctx.lineWidth (ctx (drawMouseConnection toString p d na)) = 1.5
  /\ (0 <= n <= 30)%Z
  /\ Rabs (x - v) <= 1e-15
  /\ Rabs (IZR n / 100 - x) <= 0.005
  /\ (forall d2, d <= d2 -> d2 < 150 ->
                 (Num.hundredths (alpha 0.3 d2 150) <= n)%Z).
Proof.
  intros Hs Hr Hd v x n.
  destruct (alpha_close 0.3 d 150) as [Hx Hc]; try lra.
  fold x in Hx, Hc. fold v in Hc.
  assert (Hv : 0 <= v <= 0.3) by (unfold v; lra).
  pose proof (hundredths_bounds x) as Hn. fold n in Hn.
  assert (Hc' := Hc). apply Rabs_bounds in Hc'.
  destruct (drawMouseConnection_style toString p d na) as [E1 E2].
  split; [|split; [exact E2|split; [|split; [exact Hc|split]]]].
  - rewrite E1, Hs, mouseStyle_text, Hr. fold x.
    rewrite toFixed2_unit by exact Hx. reflexivity.
  - split.
    + apply Z.lt_succ_r. apply lt_IZR. rewrite succ_IZR. simpl. lra.
    + apply Z.lt_succ_r. apply lt_IZR. rewrite succ_IZR. lra.
  - apply Rabs_le. lra.
  - intros d2 H1 H2. apply hundredths_mono. apply alpha_mono; lra.
Qed.

(** The double the script computes for the distance 2.5 from the cursor,
    and its two decimals: 0.29, where the exact value is 0.295. *)
Lemma cursor_alpha_at_2_5 : Num.hundredths (alpha 0.3 2.5 150) = 29%Z.
Proof.
  unfold alpha.
  rewrite (round_between (2.5 / 150) (/ 64) (/ 288230376151711744) (-6) 4803839602528529);
    [| exact (pow2_neg_lit 6 _ eq_refl) | exact (pow2_neg_lit 58 _ eq_refl) | lra | lra ].
  rewrite (round_between (1 - _) (/ 2) (/ 9007199254740992) (-1) 8857079267161975);
    [| exact (pow2_neg_lit 1 _ eq_refl) | exact (pow2_neg_lit 53 _ eq_refl) | lra | lra ].
  rewrite (round_between 0.3 (/ 4) (/ 18014398509481984) (-2) 5404319552844595);
    [| exact (pow2_neg_lit 2 _ eq_refl) | exact (pow2_neg_lit 54 _ eq_refl) | lra | lra ].
  rewrite (round_between (_ * _) (/ 4) (/ 18014398509481984) (-2) 5314247560297185);
    [| exact (pow2_neg_lit 2 _ eq_refl) | exact (pow2_neg_lit 54 _ eq_refl) | lra | lra ].
  apply hundredths_eq. lra.
Qed.

(** At a distance of 2.5 the alpha of the line to the cursor reads 0.29. *)
Lemma cursor_opacity_rounded_witness :
  settings cursor_field = the_settings /\ Mouse.radius (mouse cursor_field) = 150 /\
  0 <= 2.5 < 150 /\
  Ctx.strokeStyle (ctx (drawMouseConnection text_of_half (particle_at 2.5 0 0 0) 2.5
                          cursor_field))
  = "rgba(6, 182, 212, 0.29)"%string.
Proof.
  split; [reflexivity|]. split; [reflexivity|]. split; [lra|].
  destruct (cursor_opacity_rounded text_of_half cursor_field (particle_at 2.5 0 0 0) 2.5
              eq_refl eq_refl) as [H _]; [lra|].
  rewrite H, cursor_alpha_at_2_5. reflexivity.
Defined.

(* ================================================================= *)
(** ** Regeneration and the stream of [Math.random] *)

Lemma newParticle_reads (na na' : NetworkAnimation) (g g' : Math.Rng) :
  canvas na' = canvas na -> settings na' = settings na ->
  (forall k, g' k = g k) ->
  fst (newParticle na' g') = fst (newParticle na g).
Proof.
  intros Hc Hs Hg. unfold newParticle, Math.random. simpl.
  rewrite Hc, Hs, !Hg. reflexivity.
Qed.

Lemma newParticle_stream (na : NetworkAnimation) (g : Math.Rng) (k : nat) :
  snd (newParticle na g) k = g (6 + k)%nat.
Proof. reflexivity. Qed.

(** The loop of [createParticles], from any state and for any number of
    rounds. *)
Lemma pushParticle_rounds (n : nat) :
  forall (lo : nat) (na : NetworkAnimation) (g : Math.Rng),
    let r := fold_left (fun st _ => pushParticle st) (seq lo n) (na, g) in
    particles (fst r)
    = particles na
        ++ map (fun i => fst (newParticle na (shift (6 * i) g))) (seq 0 n)
    /\ (forall k, snd r k = g (6 * n + k)%nat).
Proof.
  induction n as [|n IH]; intros lo na g.
  - simpl. rewrite app_nil_r. auto.
  - cbn [seq fold_left]. rewrite pushParticle_eq. cbn [fst snd].
    set (na1 := set_particles _ na). set (g1 := snd (newParticle na g)).
    destruct (IH (S lo) na1 g1) as [Hp Hg].
    cbv zeta. split.
    + rewrite Hp. unfold na1 at 1. cbn [set_particles particles].
      rewrite <- app_assoc. f_equal. cbn [app map seq].
      assert (Hrest : map (fun i => fst (newParticle na1 (shift (6 * i) g1))) (seq 0 n)
                      = map (fun i => fst (newParticle na (shift (6 * i) g))) (seq 1 n)).
      { rewrite <- seq_shift, map_map. apply map_ext. intros i.
        apply newParticle_reads; try reflexivity.
        intros k. unfold shift, g1. rewrite newParticle_stream. f_equal. lia. }
      rewrite Hrest. f_equal.
    + intros k. rewrite Hg. unfold g1. rewrite newParticle_stream. f_equal. lia.
Qed.

Lemma createParticles_closed (na na0 : NetworkAnimation) (g : Math.Rng) :
  canvas na0 = canvas na -> settings na0 = settings na ->
  let n := Settings.particleCount (settings na) in
  particles (fst (createParticles na0 g))
  = map (fun i => fst (newParticle na (shift (6 * i) g))) (seq 0 n)
  /\ (forall k, snd (createParticles na0 g) k = g (6 * n + k)%nat).
Proof.
  intros Hc Hs n. unfold createParticles. cbv zeta.
  set (na00 := set_particles [] na0).
  assert (Hn : Settings.particleCount (settings na00) = n)
    by (unfold na00, n; simpl; rewrite Hs; reflexivity).
  rewrite Hn. unfold for_range. rewrite Nat.sub_0_r.
  destruct (pushParticle_rounds n 0 na00 g) as [Hp Hg]. cbv zeta in Hp, Hg.
  split; [|exact Hg].
  rewrite Hp. unfold na00 at 1. cbn [set_particles particles app].
  apply map_ext. intros i.
  apply newParticle_reads; [exact Hc | exact Hs | reflexivity].
Qed.

(** X6.  [createParticles] reads six numbers of the stream for each particle, in
    the order of the array, whatever particles were there before: particle
    [i] is made of the numbers [6 i] to [6 i + 5], and the stream is left at
    its number [6 * particleCount]. *)
Theorem createParticles_reads_stream (na : NetworkAnimation) (g : Math.Rng) :
  let n := Settings.particleCount (settings na) in
  particles (fst (createParticles na g))
  = map (fun i => fst (newParticle na (shift (6 * i) g))) (seq 0 n)
  /\ (forall k, snd (createParticles na g) k = g (6 * n + k)%nat)
  /\ (forall ps c,
         particles (fst (createParticles (set_ctx c (set_particles ps na)) g))
         = particles (fst (createParticles na g))).
Proof.
  intros n.
  destruct (createParticles_closed na na g eq_refl eq_refl) as [Hp Hg].
  split; [exact Hp|]. split; [exact Hg|].
  intros ps c. rewrite Hp.
  apply (createParticles_closed na (set_ctx c (set_particles ps na)) g); reflexivity.
Qed.

(** X7.  The listener of [resize] gives the surface the size of the window,
    keeps the cursor and the settings, and makes the particles anew from the
    window and the stream alone: the particles and the paint of the page
    before it leave no trace. *)
Theorem resize_regenerates (toString : R -> string) (win : Window.t) (pg : Page)
  (ps : list Particle.t) (c : Ctx.t) :
  let pg' := deliver toString (Resize win) pg in
  let other := mkPage (window pg) (rng pg) (set_ctx c (set_particles ps (this pg))) in
  window pg' = win
  /\ canvas (this pg') = Canvas.mk (Window.innerWidth win) (Window.innerHeight win)
  /\ mouse (this pg') = mouse (this pg)
  /\ settings (this pg') = settings (this pg)
  /\ particles (this (deliver toString (Resize win) other)) = particles (this pg').
Proof.
  intros pg' other. unfold pg', other, deliver, on_resize.
  cbn [window rng this].
  set (na1 := resize win (this pg)).
  set (na2 := resize win (set_ctx c (set_particles ps (this pg)))).
  destruct (createParticles_frame na1 (rng pg)) as (Hc & Hx & Hm & Hs).
  destruct (createParticles_closed na1 na1 (rng pg) eq_refl eq_refl) as [Hp1 _].
  destruct (createParticles_closed na1 na2 (rng pg) eq_refl eq_refl) as [Hp2 _].
  destruct (createParticles na1 (rng pg)) as [na g].
  destruct (createParticles na2 (rng pg)) as [na' g'].
  cbn [fst window this] in *.
  rewrite Hc, Hm, Hs, Hp1, Hp2. repeat split.
Qed.

(* ================================================================= *)
(** ** The cursor follows the pointer *)

Lemma run_app (toString : R -> string) (es fs : list Event) (pg : Page) :
  run toString (es ++ fs) pg = run toString fs (run toString es pg).
Proof. unfold run. apply fold_left_app. Qed.

Lemma deliver_keeps_mouse (toString : R -> string) (e : Event) (pg : Page) :
  pointer e = false -> mouse (this (deliver toString e pg)) = mouse (this pg).
Proof.
  destruct e as [|win|cx cy|]; try discriminate; intros _; simpl.
  - destruct (animate_frame toString (this pg)) as (_ & _ & Hm & _). exact Hm.
  - unfold on_resize. cbn [window rng this].
    destruct (createParticles_frame (resize win (this pg)) (rng pg)) as (_ & _ & Hm & _).
    destruct (createParticles _ _) as [na g]. cbn [fst this] in *.
    rewrite Hm. reflexivity.
Qed.

Lemma run_keeps_mouse (toString : R -> string) (fs : list Event) :
  forall pg : Page,
    forallb (fun e => negb (pointer e)) fs = true ->
    mouse (this (run toString fs pg)) = mouse (this pg).
Proof.
  induction fs as [|e fs IH]; intros pg H; simpl in *; [reflexivity|].
  apply andb_prop in H. destruct H as [He Hfs].
  rewrite IH by exact Hfs. apply deliver_keeps_mouse.
  destruct (pointer e); [discriminate | reflexivity].
Qed.

Lemma deliver_keeps_radius (toString : R -> string) (e : Event) (pg : Page) :
  Mouse.radius (mouse (this (deliver toString e pg))) = Mouse.radius (mouse (this pg)).
Proof.
  destruct (pointer e) eqn:E.
  - destruct e; try discriminate; reflexivity.
  - rewrite deliver_keeps_mouse by exact E. reflexivity.
Qed.

Lemma run_keeps_radius (toString : R -> string) (es : list Event) :
  forall pg : Page,
    Mouse.radius (mouse (this (run toString es pg))) = Mouse.radius (mouse (this pg)).
Proof.
  induction es as [|e es IH]; intros pg; simpl; [reflexivity|].
  rewrite IH. apply deliver_keeps_radius.
Qed.

(** X8.  The cursor is what the last event of the pointer made it, whatever came
    before and whatever frames and resizes came after: at the coordinates of
    a [mousemove], absent after a [mouseout]; its radius never changes. *)
Theorem last_pointer_event_decides (toString : R -> string)
  (es fs : list Event) (e : Event) (pg : Page) :
  pointer e = true ->
  forallb (fun e => negb (pointer e)) fs = true ->
  let m := mouse (this (run toString (es ++ e :: fs) pg)) in
  Mouse.radius m = Mouse.radius (mouse (this pg))
  /\ match e with
     | MouseMove clientX clientY =>
         Mouse.x m = Some clientX /\ Mouse.y m = Some clientY /\ present m = true
     | _ => Mouse.x m = None /\ Mouse.y m = None /\ present m = false
     end.
Proof.
  intros He Hfs m. split; [apply run_keeps_radius|].
  unfold m. rewrite run_app. simpl run at 1.
  change (run toString (e :: fs) (run toString es pg))
    with (run toString fs (deliver toString e (run toString es pg))).
  rewrite run_keeps_mouse by exact Hfs.
  destruct e as [|win|cx cy|]; try discriminate; simpl; auto.
Qed.

Lemma last_pointer_event_decides_witness :
  let pg := constructor text_of_half (Canvas.mk 300 150) (Window.mk 800 600) halves in
  let es := [Frame; MouseMove 10 20; Frame] in
  let fs := [Frame; Resize (Window.mk 400 300); Frame] in
  pointer MouseOut = true
  /\ forallb (fun e => negb (pointer e)) fs = true
  /\ present (mouse (this (run text_of_half (es ++ MouseOut :: fs) pg))) = false.
Proof.
  intros pg es fs. split; [reflexivity|]. split; [reflexivity|].
  destruct (last_pointer_event_decides text_of_half es fs MouseOut pg eq_refl eq_refl)
    as (_ & _ & _ & H).
  exact H.
Defined.

(* ================================================================= *)
(** ** Class lists *)

Lemma contains_app (c : string) (l1 l2 : ClassList.t) :
  ClassList.contains c (l1 ++ l2) = ClassList.contains c l1 || ClassList.contains c l2.
Proof. unfold ClassList.contains. apply existsb_app. Qed.

Lemma contains_true (c : string) (l : ClassList.t) :
  ClassList.contains c l = true <-> In c l.
Proof.
  unfold ClassList.contains. rewrite existsb_exists. split.
  - intros (x & Hx & E). apply String.eqb_eq in E. subst x. exact Hx.
  - intros H. exists c. split; [exact H | apply String.eqb_refl].
Qed.

Lemma contains_add (c token : string) (l : ClassList.t) :
  ClassList.contains c (ClassList.add token l)
  = String.eqb c token || ClassList.contains c l.
Proof.
  unfold ClassList.add. destruct (ClassList.contains token l) eqn:E.
  - destruct (String.eqb_spec c token) as [->|_]; [rewrite E|]; reflexivity.
  - rewrite contains_app. simpl. rewrite orb_false_r. apply orb_comm.
Qed.

Lemma contains_remove (c token : string) (l : ClassList.t) :
  ClassList.contains c (ClassList.remove token l)
  = negb (String.eqb c token) && ClassList.contains c l.
Proof.
  unfold ClassList.remove, ClassList.contains.
  induction l as [|a l IH]; simpl; [rewrite andb_false_r; reflexivity|].
  destruct (String.eqb_spec token a) as [<-|Hne]; simpl.
  - rewrite IH. destruct (String.eqb_spec c token); reflexivity.
  - rewrite IH. destruct (String.eqb_spec c token) as [->|_]; simpl.
    + destruct (String.eqb_spec token a); [contradiction | reflexivity].
    + reflexivity.
Qed.

Lemma contains_toggle (c token : string) (l : ClassList.t) :
  ClassList.contains c (ClassList.toggle token l)
  = if String.eqb c token then negb (ClassList.contains token l)
    else ClassList.contains c l.
Proof.
  unfold ClassList.toggle. destruct (ClassList.contains token l) eqn:E.
  - rewrite contains_remove.
    destruct (String.eqb_spec c token); reflexivity.
  - rewrite contains_add.
    destruct (String.eqb_spec c token) as [->|_]; [|reflexivity].
    rewrite E. reflexivity.
Qed.

(* ================================================================= *)
(** ** The navigation bar *)

Lemma nav_run_app (es fs : list NavEvent) (nav : Navigation) :
  nav_run (es ++ fs) nav = nav_run fs (nav_run es nav).
Proof. unfold nav_run. apply fold_left_app. Qed.

Lemma nav_deliver_navbar (e : NavEvent) (nav : Navigation) (c : string) :
  (forall y, e <> Scroll y) \/ c <> "scrolled"%string ->
  ClassList.contains c (navbar (nav_deliver e nav)) = ClassList.contains c (navbar nav).
Proof.
  intros H. destruct e as [y| |]; try reflexivity.
  destruct H as [H|H]; [exfalso; apply (H y); reflexivity|].
  simpl. unfold on_scroll. destruct (Num.gtb y 50); simpl.
  - rewrite contains_add.
    destruct (String.eqb_spec c "scrolled"); [contradiction | reflexivity].
  - rewrite contains_remove.
    destruct (String.eqb_spec c "scrolled"); [contradiction | reflexivity].
Qed.

(** X9.  The bar is [scrolled] exactly when the last scroll the page has seen
    left the window more than 50 down, whatever clicks came after; and no
    event gives the bar another class or takes one from it. *)
Theorem scrolled_iff_past_50 (es fs : list NavEvent) (y : R) (nav : Navigation) :
  forallb (fun e => match e with Scroll _ => false | _ => true end) fs = true ->
  let nav' := nav_run (es ++ Scroll y :: fs) nav in
  (ClassList.contains "scrolled" (navbar nav') = true <-> 50 < y)
  /\ (forall c, c <> "scrolled"%string ->
                ClassList.contains c (navbar nav') = ClassList.contains c (navbar nav)).
Proof.
  intros Hfs nav'. subst nav'. split.
  - rewrite nav_run_app.
    set (nav1 := nav_run es nav).
    change (nav_run (Scroll y :: fs) nav1) with (nav_run fs (on_scroll y nav1)).
    assert (Hkeep : forall n0,
               ClassList.contains "scrolled" (navbar (nav_run fs n0))
               = ClassList.contains "scrolled" (navbar n0)).
    { clear - Hfs. induction fs as [|e fs IH]; intros n0; [reflexivity|].
      simpl in Hfs. apply andb_prop in Hfs. destruct Hfs as [He Hfs].
      change (nav_run (e :: fs) n0) with (nav_run fs (nav_deliver e n0)).
      rewrite (IH Hfs). apply nav_deliver_navbar. left.
      intros y0 ->. discriminate. }
    rewrite Hkeep. unfold on_scroll, Num.gtb.
    destruct (Num.ltb 50 y) eqn:E; simpl.
    + rewrite contains_add. simpl. apply ltb_lt in E. tauto.
    + rewrite contains_remove. simpl. apply ltb_ge in E.
      split; [discriminate | lra].
  - intros c Hc. generalize (es ++ Scroll y :: fs) as l.
    intros l. revert nav. induction l as [|e l IH]; intros nav; [reflexivity|].
    change (nav_run (e :: l) nav) with (nav_run l (nav_deliver e nav)).
    rewrite IH. apply nav_deliver_navbar. right. exact Hc.
Qed.

Lemma scrolled_iff_past_50_witness :
  let nav := mkNavigation ["navbar"%string] ["nav-toggle"%string] ["nav-links"%string] in
  let nav' := nav_run ([Scroll 10; ToggleClick] ++ Scroll 120 :: [LinkClick]) nav in
  forallb (fun e => match e with Scroll _ => false | _ => true end) [LinkClick] = true
  /\ 50 < 120
  /\ ClassList.contains "scrolled" (navbar nav') = true
  /\ ClassList.contains "navbar" (navbar nav') = true.
Proof.
  intros nav nav'. split; [reflexivity|]. split; [lra|].
  destruct (scrolled_iff_past_50 [Scroll 10; ToggleClick] [LinkClick] 120 nav eq_refl)
    as [H1 H2].
  split.
  - apply H1. lra.
  - fold nav'. rewrite H2; [reflexivity | discriminate].
Defined.

Lemma nav_deliver_in_step (e : NavEvent) (nav : Navigation) :
  menu_in_step nav -> menu_in_step (nav_deliver e nav).
Proof.
  unfold menu_in_step. intros H. destruct e as [y| |]; simpl.
  - unfold on_scroll. destruct (Num.gtb y 50); exact H.
  - rewrite !contains_toggle. simpl. rewrite H. reflexivity.
  - rewrite !contains_remove. reflexivity.
Qed.

(** X10.  When the toggle and the links start in step on [active], they are in
    step after any events; a click on the toggle then opens a closed menu
    and closes an open one, and a click on a link leaves it closed. *)
Theorem menu_stays_in_step (es : list NavEvent) (nav : Navigation) :
  menu_in_step nav ->
  let nav' := nav_run es nav in
  menu_in_step nav'
  /\ menu_open (on_toggle_click nav') = negb (menu_open nav')
  /\ menu_open (on_link_click nav') = false.
Proof.
  intros H nav'.
  assert (Hstep : menu_in_step nav').
  { unfold nav'. clear nav'. revert nav H.
    induction es as [|e es IH]; intros nav H; [exact H|].
    change (nav_run (e :: es) nav) with (nav_run es (nav_deliver e nav)).
    apply IH. apply nav_deliver_in_step. exact H. }
  split; [exact Hstep|]. unfold menu_open, menu_in_step in *. simpl. split.
  - rewrite !contains_toggle. simpl. rewrite Hstep.
    destruct (ClassList.contains "active" (navLinks nav')); reflexivity.
  - rewrite !contains_remove. reflexivity.
Qed.

Lemma menu_stays_in_step_witness :
  let nav := mkNavigation ["navbar"%string] ["nav-toggle"%string] ["nav-links"%string] in
  let nav' := nav_run [ToggleClick; Scroll 80] nav in
  menu_in_step nav
  /\ menu_open nav' = true
  /\ menu_open (on_toggle_click nav') = false.
Proof.
  intros nav nav'.
  assert (H : menu_in_step nav) by reflexivity.
  split; [exact H|].
  destruct (menu_stays_in_step [ToggleClick; Scroll 80] nav H) as (_ & H1 & _).
  fold nav' in H1.
  assert (Hopen : menu_open nav' = true).
  { unfold nav', nav_run. simpl. unfold on_scroll. destruct (Num.gtb 80 50); reflexivity. }
  split; [exact Hopen|]. rewrite H1, Hopen. reflexivity.
Defined.

Lemma toggles_since_link_click (post : list NavEvent) :
  forall nav : Navigation,
    forallb (fun e => negb (is_link_click e)) post = true ->
    ClassList.contains "active" (navToggle (nav_run post nav))
    = xorb (ClassList.contains "active" (navToggle nav))
        (Nat.odd (List.length (filter is_toggle_click post)))
    /\ ClassList.contains "active" (navLinks (nav_run post nav))
       = xorb (ClassList.contains "active" (navLinks nav))
           (Nat.odd (List.length (filter is_toggle_click post))).
Proof.
  induction post as [|e post IH]; intros nav H.
  - simpl. rewrite !xorb_false_r. auto.
  - simpl in H. apply andb_prop in H. destruct H as [He H].
    change (nav_run (e :: post) nav) with (nav_run post (nav_deliver e nav)).
    destruct (IH (nav_deliver e nav) H) as [E1 E2]. rewrite E1, E2.
    clear E1 E2 IH.
    destruct e as [y| |]; try discriminate.
    + simpl. unfold on_scroll. destruct (Num.gtb y 50); auto.
    + cbn [nav_deliver on_toggle_click navToggle navLinks filter is_toggle_click
             List.length].
      rewrite !contains_toggle, Nat.odd_succ, <- Nat.negb_odd. simpl String.eqb.
      cbv iota.
      generalize (ClassList.contains "active" (navToggle nav)),
        (ClassList.contains "active" (navLinks nav)),
        (Nat.odd (List.length (filter is_toggle_click post))).
      intros [] [] []; split; reflexivity.
Qed.

(** X11.  After a click on a link of the menu, the menu is open exactly when the
    toggle has been clicked an odd number of times since, however the
    classes stood before the link was clicked. *)
Theorem menu_after_link_click (pre post : list NavEvent) (nav : Navigation) :
  forallb (fun e => negb (is_link_click e)) post = true ->
  let nav' := nav_run (pre ++ LinkClick :: post) nav in
  let clicks := List.length (filter is_toggle_click post) in
  menu_open nav' = Nat.odd clicks
  /\ ClassList.contains "active" (navToggle nav') = Nat.odd clicks
  /\ ClassList.contains "active" (navLinks nav') = Nat.odd clicks.
Proof.
  intros H nav' clicks. unfold nav'. rewrite nav_run_app.
  set (nav1 := nav_run pre nav).
  change (nav_run (LinkClick :: post) nav1) with (nav_run post (on_link_click nav1)).
  destruct (toggles_since_link_click post (on_link_click nav1) H) as [E1 E2].
  fold clicks in E1, E2. simpl in E1, E2.
  rewrite contains_remove in E1, E2. simpl in E1, E2.
  unfold menu_open. rewrite E1, E2. destruct (Nat.odd clicks); auto.
Qed.

Lemma menu_after_link_click_witness :
  let nav := mkNavigation [] ["active"%string] [] in
  let post := [ToggleClick; Scroll 3; ToggleClick; ToggleClick] in
  forallb (fun e => negb (is_link_click e)) post = true
  /\ menu_open (nav_run ([ToggleClick] ++ LinkClick :: post) nav) = true.
Proof.
  intros nav post. split; [reflexivity|].
  destruct (menu_after_link_click [ToggleClick] post nav eq_refl) as [H _].
  exact H.
Defined.

(* ================================================================= *)
(** ** The reveal on scroll *)

Lemma in_reveal_from (entries : list Entry) :
  forall (index d t : nat),
    In (d, t) (reveal_from index entries) <->
    exists i entry,
      nth_error entries i = Some entry /\ isIntersecting entry = true /\
      t = target entry /\ d = ((index + i) * 50)%nat.
Proof.
  induction entries as [|e rest IH]; intros index d t; simpl.
  - split; [contradiction|]. intros ([|i] & entry & H & _); discriminate.
  - rewrite in_app_iff, IH. split.
    + intros [H|(i & entry & Hn & Hi & Ht & Hd)].
      * destruct (isIntersecting e) eqn:E; [|contradiction].
        destruct H as [H|[]]. inversion H; subst.
        exists 0%nat, e. rewrite Nat.add_0_r. auto.
      * exists (S i), entry. repeat split; try assumption. lia.
    + intros ([|i] & entry & Hn & Hi & Ht & Hd); simpl in Hn.
      * inversion Hn; subst entry. left. rewrite Hi. left.
        rewrite Nat.add_0_r in Hd. subst. reflexivity.
      * right. exists i, entry. repeat split; try assumption. lia.
Qed.

Lemma reveal_from_length (entries : list Entry) :
  forall index,
    List.length (reveal_from index entries)
    = List.length (filter isIntersecting entries).
Proof.
  induction entries as [|e rest IH]; intros index; simpl; [reflexivity|].
  rewrite length_app, IH. destruct (isIntersecting e); reflexivity.
Qed.

Lemma reveal_from_apart (entries : list Entry) :
  forall (index i j : nat) (a b : nat * nat),
    (i < j)%nat ->
    nth_error (reveal_from index entries) i = Some a ->
    nth_error (reveal_from index entries) j = Some b ->
    (index * 50 <= fst a /\ fst a + 50 <= fst b)%nat.
Proof.
  induction entries as [|e rest IH]; intros index i j a b Hij Ha Hb.
  - destruct i; discriminate.
  - simpl in Ha, Hb. destruct (isIntersecting e).
    + destruct j as [|j]; [lia|]. simpl in Hb.
      assert (Hlow : (S index * 50 <= fst b)%nat).
      { apply nth_error_In in Hb. destruct b as [d t].
        apply in_reveal_from in Hb. destruct Hb as (k & _ & _ & _ & _ & ->).
        simpl. lia. }
      destruct i as [|i]; simpl in Ha.
      * inversion Ha; subst a. simpl. lia.
      * destruct (IH (S index) i j a b) as [H1 H2]; try assumption; lia.
    + simpl in Ha, Hb.
      destruct (IH (S index) i j a b) as [H1 H2]; try assumption; lia.
Qed.

(** X12.  The callback of the observer sets one timer for every entry that
    intersects and none for the others; the delay of a timer is 50 ms times
    the place of its entry among all the entries of the call, so the timers
    come in the order of the entries, at least 50 ms apart. *)
Theorem reveal_staggers (entries : list Entry) :
  (forall d t,
      In (d, t) (reveal entries) <->
      exists i entry,
        nth_error entries i = Some entry /\ isIntersecting entry = true /\
        t = target entry /\ d = (i * 50)%nat)
  /\ List.length (reveal entries) = List.length (filter isIntersecting entries)
  /\ (forall i j a b,
         (i < j)%nat ->
         nth_error (reveal entries) i = Some a ->
         nth_error (reveal entries) j = Some b ->
         (fst a + 50 <= fst b)%nat).
Proof.
  unfold reveal. split; [|split].
  - intros d t. apply (in_reveal_from entries 0).
  - apply reveal_from_length.
  - intros i j a b Hij Ha Hb.
    apply (reveal_from_apart entries 0 i j a b Hij Ha Hb).
Qed.

Lemma contains_make_visible (c : string) (el k : nat) (page : Elements) :
  ClassList.contains c (make_visible el page k)
  = ClassList.contains c (page k) || (String.eqb c "visible" && Nat.eqb k el).
Proof.
  unfold make_visible. destruct (Nat.eqb k el).
  - rewrite contains_add, andb_true_r. apply orb_comm.
  - rewrite andb_false_r, orb_false_r. reflexivity.
Qed.

Lemma contains_fire_all (c : string) (k : nat) (timers : list (nat * nat)) :
  forall page : Elements,
    ClassList.contains c (fire_all timers page k)
    = ClassList.contains c (page k)
      || (String.eqb c "visible" && existsb (fun timer => Nat.eqb k (snd timer)) timers).
Proof.
  induction timers as [|tm timers IH]; intros page.
  - simpl. rewrite andb_false_r, orb_false_r. reflexivity.
  - change (fire_all (tm :: timers) page)
      with (fire_all timers (make_visible (snd tm) page)).
    rewrite IH, contains_make_visible. simpl existsb.
    destruct (ClassList.contains c (page k)), (String.eqb c "visible"),
      (Nat.eqb k (snd tm)); reflexivity.
Qed.

Lemma reveal_from_targets (k : nat) (entries : list Entry) :
  forall index,
    existsb (fun timer => Nat.eqb k (snd timer)) (reveal_from index entries)
    = existsb (fun entry => isIntersecting entry && Nat.eqb k (target entry)) entries.
Proof.
  induction entries as [|e rest IH]; intros index; simpl; [reflexivity|].
  rewrite existsb_app, IH. destruct (isIntersecting e); simpl.
  - rewrite orb_false_r. reflexivity.
  - reflexivity.
Qed.

(** X13.  Once the timers of a call of the observer have fired, an element is
    [visible] exactly when it was before or one of the entries of the call
    reports it as intersecting; no other class of any element changes, and
    no element loses [visible]. *)
Theorem revealed_iff_intersecting (entries : list Entry) (page : Elements) (k : nat) :
  let page' := fire_all (reveal entries) page in
  ClassList.contains "visible" (page' k)
  = ClassList.contains "visible" (page k)
    || existsb (fun entry => isIntersecting entry && Nat.eqb k (target entry)) entries
  /\ (forall c, c <> "visible"%string ->
                ClassList.contains c (page' k) = ClassList.contains c (page k))
  /\ (ClassList.contains "visible" (page k) = true ->
      ClassList.contains "visible" (page' k) = true).
Proof.
  intros page'. unfold page', reveal.
  assert (H : ClassList.contains "visible" (fire_all (reveal_from 0 entries) page k)
              = ClassList.contains "visible" (page k)
                || existsb (fun entry => isIntersecting entry && Nat.eqb k (target entry))
                     entries).
  { rewrite contains_fire_all, reveal_from_targets. reflexivity. }
  split; [exact H|]. split.
  - intros c Hc. rewrite contains_fire_all.
    destruct (String.eqb_spec c "visible"); [contradiction|].
    apply orb_false_r.
  - intros Hv. rewrite H, Hv. reflexivity.
Qed.

(* ================================================================= *)
(** ** The debounced function *)

Section DebounceFacts.

Variable A : Type.
Variable wait : nat.

Lemma debounce_run_app (es fs : list (DebounceEvent A)) (st : Debounced A) :
  debounce_run wait (es ++ fs) st = debounce_run wait fs (debounce_run wait es st).
Proof. unfold debounce_run. apply fold_left_app. Qed.

Lemma clear_own_timer (t : Timer A) :
  clearTimeout (Some (timer_id t)) [t] = [].
Proof. simpl. rewrite Nat.eqb_refl. reflexivity. Qed.

Lemma clear_no_timer (id : option nat) : @clearTimeout A id [] = [].
Proof. destruct id; reflexivity. Qed.

(** A call leaves its own timer set, and no other. *)
Lemma call_sets_one_timer (args : A) (st : Debounced A) :
  one_timer st ->
  executedFunction wait args st
  = mkDebounced (now st) (S (next_id st))
      [mkTimer (next_id st) (now st + wait) args] (Some (next_id st)) (calls st).
Proof.
  intros [H|(t & H & Ht)]; unfold executedFunction; rewrite H.
  - rewrite clear_no_timer. reflexivity.
  - rewrite Ht, clear_own_timer. reflexivity.
Qed.

Lemma fire_one_timer (t : Timer A) (st : Debounced A) :
  timers st = [t] ->
  fire st
  = if Nat.leb (due t) (now st)
    then mkDebounced (now st) (next_id st) [] (timeout st) (calls st ++ [held t])
    else st.
Proof.
  intros H. unfold fire. rewrite H. simpl.
  destruct (Nat.leb (due t) (now st)); [|reflexivity].
  unfold later. simpl. rewrite Nat.eqb_refl. simpl.
  rewrite clear_no_timer. reflexivity.
Qed.

Lemma fire_no_timer (st : Debounced A) : timers st = [] -> fire st = st.
Proof. intros H. unfold fire. rewrite H. reflexivity. Qed.

Lemma step_one_timer (e : DebounceEvent A) (st : Debounced A) :
  one_timer st -> one_timer (debounce_step wait e st).
Proof.
  intros H. destruct e as [args|ms|]; simpl.
  - rewrite call_sets_one_timer by exact H. right. eexists. split; reflexivity.
  - exact H.
  - destruct H as [H|(t & H & Ht)].
    + rewrite fire_no_timer by exact H. left. exact H.
    + rewrite (fire_one_timer t) by exact H.
      destruct (Nat.leb (due t) (now st)).
      * left. reflexivity.
      * right. exists t. auto.
Qed.

Lemma run_one_timer (es : list (DebounceEvent A)) :
  forall st, one_timer st -> one_timer (debounce_run wait es st).
Proof.
  induction es as [|e es IH]; intros st H; [exact H|].
  apply (IH (debounce_step wait e st)). apply step_one_timer. exact H.
Qed.

(** With no timer set and no call, nothing happens but the passing of
    time. *)
Lemma idle (post : list (DebounceEvent A)) :
  forall st,
    forallb (fun e => negb (is_call e)) post = true ->
    timers st = [] ->
    timers (debounce_run wait post st) = []
    /\ calls (debounce_run wait post st) = calls st
    /\ now (debounce_run wait post st) = (now st + waited post)%nat.
Proof.
  induction post as [|e post IH]; intros st H Ht.
  - simpl. rewrite Nat.add_0_r. auto.
  - simpl in H. apply andb_prop in H. destruct H as [He H].
    change (debounce_run wait (e :: post) st)
      with (debounce_run wait post (debounce_step wait e st)).
    destruct e as [args|ms|]; try discriminate.
    + destruct (IH (debounce_step wait (Wait ms) st) H Ht) as (H1 & H2 & H3).
      rewrite H1, H2, H3. simpl. repeat split. lia.
    + simpl debounce_step. rewrite fire_no_timer by exact Ht.
      destruct (IH st H Ht) as (H1 & H2 & H3). simpl. auto.
Qed.

(** With one timer set and no call, the timer fires once it is due and the
    host looks, and nothing else happens. *)
Lemma pending (post : list (DebounceEvent A)) :
  forall (st : Debounced A) (t : Timer A),
    forallb (fun e => negb (is_call e)) post = true ->
    timers st = [t] ->
    let st' := debounce_run wait post st in
    now st' = (now st + waited post)%nat
    /\ ((timers st' = [t] /\ calls st' = calls st)
        \/ (timers st' = [] /\ calls st' = calls st ++ [held t]
            /\ (due t <= now st')%nat)).
Proof.
  induction post as [|e post IH]; intros st t H Ht.
  - simpl. rewrite Nat.add_0_r. auto.
  - simpl in H. apply andb_prop in H. destruct H as [He H].
    change (debounce_run wait (e :: post) st)
      with (debounce_run wait post (debounce_step wait e st)).
    destruct e as [args|ms|]; try discriminate.
    + destruct (IH (debounce_step wait (Wait ms) st) t H Ht) as (H1 & H2).
      cbv zeta. split; [rewrite H1; simpl; lia | exact H2].
    + simpl debounce_step. rewrite (fire_one_timer t) by exact Ht.
      destruct (Nat.leb (due t) (now st)) eqn:E.
      * apply Nat.leb_le in E.
        destruct (idle post
                    (mkDebounced (now st) (next_id st) [] (timeout st)
                       (calls st ++ [held t])) H eq_refl) as (H1 & H2 & H3).
        cbv zeta. rewrite H1, H2, H3. simpl. split; [reflexivity|].
        right. repeat split. lia.
      * apply (IH st t H Ht).
Qed.

(** X14.  The last call wins.  After a call with [a] and any waiting and firing
    with no further call, [func] has been called at most once more than
    before the call, and then with [a] and no sooner than [wait] after the
    call; until then one timer is set, due [wait] after the call and
    holding [a].  What an earlier call had pending is never run. *)
Theorem debounce_last_call_wins (pre post : list (DebounceEvent A)) (a : A) :
  forallb (fun e => negb (is_call e)) post = true ->
  let st0 := debounce_run wait pre debounced in
  let st := debounce_run wait (pre ++ Call a :: post) debounced in
  now st = (now st0 + waited post)%nat
  /\ ((calls st = calls st0
       /\ exists id, timers st = [mkTimer id (now st0 + wait) a])
      \/ (calls st = calls st0 ++ [a] /\ timers st = []
          /\ (now st0 + wait <= now st)%nat))
  /\ ((waited post < wait)%nat -> calls st = calls st0).
Proof.
  intros H st0 st.
  assert (H0 : one_timer st0).
  { apply run_one_timer. left. reflexivity. }
  set (t := mkTimer (next_id st0) (now st0 + wait) a).
  set (st1 := mkDebounced (now st0) (S (next_id st0)) [t] (Some (next_id st0))
                (calls st0)).
  assert (E : st = debounce_run wait post st1).
  { unfold st. rewrite debounce_run_app. fold st0.
    change (debounce_run wait (Call a :: post) st0)
      with (debounce_run wait post (executedFunction wait a st0)).
    rewrite call_sets_one_timer by exact H0. reflexivity. }
  destruct (pending post st1 t H eq_refl) as (Hnow & Hcases).
  rewrite <- E in Hnow, Hcases. simpl in Hnow, Hcases.
  split; [exact Hnow|]. split.
  - destruct Hcases as [[Ht Hc]|(Ht & Hc & Hd)].
    + left. split; [exact Hc|]. eexists. exact Ht.
    + right. auto.
  - intros Hw. destruct Hcases as [[Ht Hc]|(Ht & Hc & Hd)]; [exact Hc | lia].
Qed.

(** X15.  Once [wait] has passed since the last call and the host has looked
    for a timer, [func] has been called with the arguments of that call,
    once; later looks of the host do not call it again. *)
Theorem debounce_fires_once (pre quiet more : list (DebounceEvent A)) (a : A) :
  forallb (fun e => negb (is_call e)) quiet = true ->
  forallb (fun e => negb (is_call e)) more = true ->
  (wait <= waited quiet)%nat ->
  let st0 := debounce_run wait pre debounced in
  let st := debounce_run wait (pre ++ Call a :: quiet ++ Fire :: more) debounced in
  calls st = calls st0 ++ [a] /\ timers st = [].
Proof.
  intros Hq Hm Hw st0 st.
  assert (H0 : one_timer st0).
  { apply run_one_timer. left. reflexivity. }
  set (t := mkTimer (next_id st0) (now st0 + wait) a).
  set (st1 := mkDebounced (now st0) (S (next_id st0)) [t] (Some (next_id st0))
                (calls st0)).
  assert (E : st = debounce_run wait more
                     (fire (debounce_run wait quiet st1))).
  { unfold st. rewrite debounce_run_app. fold st0.
    change (debounce_run wait (Call a :: quiet ++ Fire :: more) st0)
      with (debounce_run wait (quiet ++ Fire :: more) (executedFunction wait a st0)).
    rewrite call_sets_one_timer by exact H0. fold t. fold st1.
    rewrite debounce_run_app. reflexivity. }
  destruct (pending quiet st1 t Hq eq_refl) as (Hnow & Hcases).
  cbv zeta in Hnow, Hcases.
  set (st2 := debounce_run wait quiet st1) in *.
  assert (F : timers (fire st2) = [] /\ calls (fire st2) = calls st0 ++ [a]).
  { destruct Hcases as [[Ht Hc]|(Ht & Hc & Hd)].
    - rewrite (fire_one_timer t) by exact Ht.
      replace (Nat.leb (due t) (now st2)) with true
        by (symmetry; apply Nat.leb_le; rewrite Hnow; simpl; lia).
      simpl. rewrite Hc. auto.
    - rewrite fire_no_timer by exact Ht. auto. }
  destruct F as [Ft Fc].
  destruct (idle more (fire st2) Hm Ft) as (H1 & H2 & _).
  rewrite E, H1, H2, Fc. auto.
Qed.

Lemma step_counts (e : DebounceEvent A) (st : Debounced A) :
  one_timer st ->
  (List.length (calls (debounce_step wait e st))
   + List.length (timers (debounce_step wait e st))
   <= List.length (calls st) + List.length (timers st)
      + (if is_call e then 1 else 0))%nat.
Proof.
  intros H. destruct e as [args|ms|]; cbn [debounce_step is_call].
  - rewrite call_sets_one_timer by exact H. simpl. lia.
  - simpl. lia.
  - destruct H as [H|(t & H & Ht)].
    + rewrite fire_no_timer by exact H. lia.
    + rewrite (fire_one_timer t) by exact H.
      destruct (Nat.leb (due t) (now st)); simpl; rewrite ?length_app, H; simpl; lia.
Qed.

(** X16.  However the function is called and the host runs, at most one timer is
    set at any time, and [func] has been called at most as often as the
    function was, less the call that is still waiting. *)
Theorem debounce_at_most_one_timer (es : list (DebounceEvent A)) :
  let st := debounce_run wait es debounced in
  (List.length (timers st) <= 1)%nat
  /\ (List.length (calls st) + List.length (timers st)
      <= List.length (filter is_call es))%nat.
Proof.
  intros st.
  assert (H : forall (fs : list (DebounceEvent A)) (s0 : Debounced A),
             one_timer s0 ->
             one_timer (debounce_run wait fs s0)
             /\ (List.length (calls (debounce_run wait fs s0))
                 + List.length (timers (debounce_run wait fs s0))
                 <= List.length (calls s0) + List.length (timers s0)
                    + List.length (filter is_call fs))%nat).
  { induction fs as [|e fs IH]; intros s0 H0.
    - simpl. split; [exact H0 | lia].
    - change (debounce_run wait (e :: fs) s0)
        with (debounce_run wait fs (debounce_step wait e s0)).
      destruct (IH (debounce_step wait e s0) (step_one_timer e s0 H0)) as [I1 I2].
      split; [exact I1|].
      pose proof (step_counts e s0 H0) as Hs.
      simpl filter. destruct (is_call e); simpl List.length; lia. }
  destruct (H es debounced (or_introl eq_refl)) as [H1 H2].
  fold st in H1, H2. simpl in H2. split; [|exact H2].
  destruct H1 as [->|(t & -> & _)]; simpl; lia.
Qed.

End DebounceFacts.

(* ================================================================= *)
(** ** More of the properties at work *)

(** The cursor at (5, 0) pushes the particle that arrives at (8, 4), at a
    distance of 5, along (3, 4). *)
Lemma push_is_radial_witness :
  let p := particle_at 8 4 0 0 in
  let q := advance (bounce cursor_field p) in
  distance_to q 5 0 = 5
  /\ (0 < distance_to q 5 0 /\ distance_to q 5 0 < Mouse.radius (mouse cursor_field))
  /\ distance_to (updateParticle cursor_field p) 5 0 = 5 + (150 - 5) / 150 * 0.5.
Proof.
  intros p q.
  assert (B : bounce cursor_field p = p) by (apply bounce_inside; simpl; lra).
  assert (D : distance_to q 5 0 = 5).
  { unfold q. rewrite B. unfold distance_to, distance_of, Math.sqrt. simpl.
    replace ((8 + 0 - 5) * (8 + 0 - 5) + (4 + 0 - 0) * (4 + 0 - 0)) with (5 * 5) by lra.
    apply sqrt_square. lra. }
  assert (H1 : 0 < distance_to q 5 0) by (rewrite D; lra).
  assert (H2 : distance_to q 5 0 < Mouse.radius (mouse cursor_field))
    by (rewrite D; simpl; lra).
  split; [exact D|]. split; [split; assumption|].
  destruct (push_is_radial cursor_field p 5 0 eq_refl eq_refl H1 H2) as (_ & _ & _ & H).
  fold q in H. rewrite H, D. reflexivity.
Defined.

(** Two calls 100 ms apart with a wait of 300 ms: 200 ms after the second,
    [func] has not been called, with either argument. *)
Lemma debounce_last_call_wins_witness :
  let pre := [Call 1%nat; Wait 100] in
  let post := [Wait 200; Fire] in
  forallb (fun e => negb (is_call e)) post = true
  /\ (waited post < 300)%nat
  /\ calls (debounce_run 300 (pre ++ Call 2%nat :: post) debounced) = [].
Proof.
  intros pre post. split; [reflexivity|]. split; [simpl; lia|].
  destruct (debounce_last_call_wins nat 300 pre post 2%nat eq_refl) as (_ & _ & H).
  apply H. simpl. lia.
Defined.

(** The same two calls: 300 ms after the second, [func] is called with the
    second argument, once. *)
Lemma debounce_fires_once_witness :
  let pre := [Call 1%nat; Wait 100] in
  let quiet := [Wait 150; Fire; Wait 150] in
  let more := [Wait 1000; Fire] in
  forallb (fun e => negb (is_call e)) quiet = true
  /\ forallb (fun e => negb (is_call e)) more = true
  /\ (300 <= waited quiet)%nat
  /\ calls (debounce_run 300 (pre ++ Call 2%nat :: quiet ++ Fire :: more) debounced)
     = [2%nat].
Proof.
  intros pre quiet more.
  split; [reflexivity|]. split; [reflexivity|]. split; [simpl; lia|].
  destruct (debounce_fires_once nat 300 pre quiet more 2%nat eq_refl eq_refl) as [H _].
  - simpl. lia.
  - exact H.
Defined.
